(** * eco-route-ai: the search-suggestion engine

    A shallow embedding of the suggestion route handler
    ([app/api/search-suggestions/route.ts]), of the gazetteer
    ([lib/us-locations.ts]) and of the older search handler
    ([app/api/search/route.ts]), with the properties of the aggregation
    pipeline, of the relevance scorer and of the rate limiter.

    Conventions of the model.
    - A JavaScript string is a [string]: the UTF-8 bytes of its text.
      Concatenation, equality, [startsWith] and [includes] are those of
      the byte sequence, which on well-formed text are those of the
      sequence of code units; the arrow of a route key is the three bytes
      of U+2192.
    - [toLowerCase], [trim], the pattern [\s] and [length] follow the
      Unicode tables and the UTF-16 encoding of the JavaScript runtime.
      They are built-ins, not code of the repository: the handlers are
      functions of them, through the class [JsRuntime], and the properties
      hold for every runtime.  The laws of the built-ins that a property
      needs are stated with it ([JsEmptyLaws], [JsCaseLaws]).
    - [ascii_runtime] computes the built-ins on ASCII text; the sample
      evaluations at the end of the file are made with it.
    - An optional field [f?: string] is an [option string]; JavaScript
      truthiness of such a field is [truthy] (present and non-empty).
    - [Date.now()] is an input [now : Z] in milliseconds.
    - An exception is the [Throw] of the monad [exn]; [try]/[catch] is
      [try_catch]. *)

From Stdlib Require Import ZArith Ascii String List Lia Bool.
From stdpp Require Import base option list strings gmap pretty sorting.

Open Scope string_scope.
Open Scope Z_scope.

(** ** JavaScript strings *)

Module JsString.

(** The empty string is the only falsy string. *)
Definition nonempty (s : string) : bool :=
  match s with EmptyString => false | _ => true end.

(** [s.startsWith(p)] *)
Fixpoint startsWith (s p : string) {struct p} : bool :=
  match p, s with
  | EmptyString, _ => true
  | String _ _, EmptyString => false
  | String b p', String a s' => if Ascii.eqb a b then startsWith s' p' else false
  end.

(** [s.includes(p)] *)
Fixpoint includes (s p : string) : bool :=
  startsWith s p ||
  match s with
  | EmptyString => false
  | String _ s' => includes s' p
  end.

(** [s.split(',')[0]]: the text before the first comma. *)
Fixpoint before_comma (s : string) : string :=
  match s with
  | EmptyString => EmptyString
  | String c s' => if Ascii.eqb c "," then EmptyString else String c (before_comma s')
  end.

(** [arr.some(p)] *)
Definition some {A} (p : A -> bool) (l : list A) : bool := existsb p l.

End JsString.

Import JsString.

(** ** The string built-ins of the runtime *)

(** The built-ins that depend on the Unicode tables or on the encoding:
    [s.toLowerCase()], [s.trim()], [s.split(/\s+/)],
    [s.replace(/\s+/g, r)] and [s.length] (in UTF-16 code units). *)
Class JsRuntime := {
  toLowerCase : string -> string;
  trim : string -> string;
  split_ws : string -> list string;
  replace_ws : string -> string -> string;
  js_length : string -> nat
}.

(** The built-ins on the empty string: it is the only string of length
    0 and the only one whose lower-case form is empty, and trimming it
    gives it back. *)
Class JsEmptyLaws `{!JsRuntime} : Prop := {
  js_length_zero : forall s, js_length s = 0%nat <-> s = "";
  toLowerCase_empty : forall s, toLowerCase s = "" <-> s = "";
  trim_empty : trim "" = ""
}.

(** Lower-casing a lower-cased string and trimming a trimmed string
    change nothing, and the two commute: whitespace has no case, no
    character lower-cases to whitespace, and the one context rule of
    lower-casing, for the final sigma, looks for cased letters only, which
    the whitespace at the two ends of a string does not hide. *)
Class JsCaseLaws `{!JsRuntime} : Prop := {
  toLowerCase_idem : forall s, toLowerCase (toLowerCase s) = toLowerCase s;
  trim_idem : forall s, trim (trim s) = trim s;
  trim_toLowerCase : forall s, trim (toLowerCase s) = toLowerCase (trim s)
}.

(** ** The built-ins on ASCII text *)

Module AsciiRuntime.

(** The ASCII members of the ECMAScript WhiteSpace and LineTerminator
    classes: TAB, LF, VT, FF, CR and SPACE. *)
Definition is_ws (c : ascii) : bool :=
  let n := nat_of_ascii c in
  ((9 <=? n)%nat && (n <=? 13)%nat) || (n =? 32)%nat.

Definition lower_char (c : ascii) : ascii :=
  let n := nat_of_ascii c in
  if ((65 <=? n)%nat && (n <=? 90)%nat)%bool then ascii_of_nat (n + 32) else c.

Fixpoint toLowerCase (s : string) : string :=
  match s with
  | EmptyString => EmptyString
  | String c s' => String (lower_char c) (toLowerCase s')
  end.

Fixpoint trimStart (s : string) : string :=
  match s with
  | EmptyString => EmptyString
  | String c s' => if is_ws c then trimStart s' else s
  end.

Fixpoint trimEnd (s : string) : string :=
  match s with
  | EmptyString => EmptyString
  | String c s' =>
      match trimEnd s' with
      | EmptyString => if is_ws c then EmptyString else String c EmptyString
      | r => String c r
      end
  end.

Definition trim (s : string) : string := trimEnd (trimStart s).

(** The pieces between maximal runs of whitespace.  A string that starts
    (ends) with whitespace has an empty first (last) piece, and the empty
    string has the single piece [""].  The flag says that the previous
    character was whitespace. *)
Fixpoint split_ws_from (in_ws : bool) (s : string) : list string :=
  match s with
  | EmptyString => [EmptyString]
  | String c s' =>
      if is_ws c then
        if in_ws then split_ws_from true s'
        else EmptyString :: split_ws_from true s'
      else
        match split_ws_from false s' with
        | w :: ws => String c w :: ws
        | [] => [String c EmptyString]
        end
  end.

Definition split_ws (s : string) : list string := split_ws_from false s.

(** Every maximal run of whitespace replaced by [r]. *)
Fixpoint replace_ws_from (in_ws : bool) (s r : string) : string :=
  match s with
  | EmptyString => EmptyString
  | String c s' =>
      if is_ws c then
        if in_ws then replace_ws_from true s' r else r +:+ replace_ws_from true s' r
      else String c (replace_ws_from false s' r)
  end.

Definition replace_ws (s r : string) : string := replace_ws_from false s r.

End AsciiRuntime.

Definition ascii_runtime : JsRuntime :=
  {| toLowerCase := AsciiRuntime.toLowerCase;
     trim := AsciiRuntime.trim;
     split_ws := AsciiRuntime.split_ws;
     replace_ws := AsciiRuntime.replace_ws;
     js_length := String.length |}.

(** [x || ''] on an optional string. *)
Definition or_empty (o : option string) : string :=
  match o with Some s => s | None => "" end.

(** JavaScript truthiness of an optional string. *)
Definition truthy (o : option string) : bool := nonempty (or_empty o).

(** [s || undefined] *)
Definition or_undefined (s : string) : option string :=
  if nonempty s then Some s else None.

(** ** The suggestion data model *)

Inductive Source := static | database | ai.

Inductive SuggestionType := TState | TCity | TRoute | TDestination.

#[global] Instance Source_eq_dec : EqDecision Source.
Proof. solve_decision. Defined.

#[global] Instance SuggestionType_eq_dec : EqDecision SuggestionType.
Proof. solve_decision. Defined.

(** The objects built by the three sources.  The declared [Suggestion]
    type has no [type] field, but the gazetteer, the history matcher and
    the provider path of the generative adapter attach one; the handler
    reads it back, so the model keeps it as an optional field. *)
Record Suggestion := mkSuggestion {
  id : string;
  label : string;
  origin : option string;
  destination : option string;
  type_ : option SuggestionType;
  source : Source;
  relevanceScore : Z;
  description : option string
}.

(** ** Route identity and relevance *)

Section Identity.
Context {rt : JsRuntime}.

Definition arrow : string := "→".

Definition normalizeRoute (origin destination : option string) : string :=
  let o := trim (toLowerCase (or_empty origin)) in
  let d := trim (toLowerCase (or_empty destination)) in
  if nonempty o && nonempty d then o +:+ arrow +:+ d
  else if nonempty d then d else o.

Definition calculateRelevanceScore (origin destination : option string) (query : string) : Z :=
  let q := trim (toLowerCase query) in
  let origin := toLowerCase (or_empty origin) in
  let destination := toLowerCase (or_empty destination) in
  if String.eqb origin q || String.eqb destination q then 100
  else if startsWith origin q || startsWith destination q then 80
  else if includes origin q || includes destination q then 60
  else
    let originWords := split_ws origin in
    let destWords := split_ws destination in
    let queryWords := split_ws q in
    let hasWordMatch :=
      some (fun qw => some (fun ow => startsWith ow qw) originWords
                      || some (fun dw => startsWith dw qw) destWords) queryWords in
    if hasWordMatch then 40 else 20.

(** ** The deduplicator *)

(** [new Map<string, Suggestion>()]: a JavaScript [Map] enumerates its
    entries in the order in which their keys were first inserted, and
    [set] on a key that is already there replaces the value in place.
    The deduplicator returns [Array.from(seen.values())], so the order is
    part of its result and the map is an association list. *)
Definition SeenMap := list (string * Suggestion).

Fixpoint seen_get (key : string) (seen : SeenMap) : option Suggestion :=
  match seen with
  | [] => None
  | (k, v) :: rest => if String.eqb k key then Some v else seen_get key rest
  end.

Fixpoint seen_set (key : string) (sug : Suggestion) (seen : SeenMap) : SeenMap :=
  match seen with
  | [] => [(key, sug)]
  | (k, v) :: rest =>
      if String.eqb k key then (k, sug) :: rest else (k, v) :: seen_set key sug rest
  end.

Definition seen_values (seen : SeenMap) : list Suggestion := map snd seen.

Definition sourcePriority (s : Source) : Z :=
  match s with static => 3 | database => 2 | ai => 1 end.

(** One iteration of the loop of [deduplicateSuggestions]. *)
Definition dedup_step (seen : SeenMap) (sug : Suggestion) : SeenMap :=
  let key := normalizeRoute (origin sug) (destination sug) in
  match seen_get key seen with
  | None => seen_set key sug seen
  | Some existing =>
      let existingPriority := sourcePriority (source existing) in
      let sugPriority := sourcePriority (source sug) in
      if existingPriority <? sugPriority then seen_set key sug seen
      else if (sugPriority =? existingPriority)
              && (relevanceScore existing <? relevanceScore sug)
      then seen_set key sug seen
      else seen
  end.

Definition deduplicateSuggestions (suggestions : list Suggestion) : list Suggestion :=
  seen_values (fold_left dedup_step suggestions []).

End Identity.

(** ** Sorting *)

(** [Array.prototype.sort(cmp)] is stable; for a comparator that is a
    consistent ordering its result is the stable sort, here by insertion
    from the right.  [cmp a b <= 0] keeps [a] before [b]. *)
Section Sort.
Context {A : Type} (cmp : A -> A -> Z).

Fixpoint sort_insert (x : A) (l : list A) : list A :=
  match l with
  | [] => [x]
  | y :: l' => if cmp x y <=? 0 then x :: l else y :: sort_insert x l'
  end.

Definition js_sort (l : list A) : list A := foldr sort_insert [] l.
End Sort.

(** ** The gazetteer *)

Module UsLocations.

Definition US_STATES : list string := [
  "Alabama"; "Alaska"; "Arizona"; "Arkansas"; "California"; "Colorado";
  "Connecticut"; "Delaware"; "Florida"; "Georgia"; "Hawaii"; "Idaho";
  "Illinois"; "Indiana"; "Iowa"; "Kansas"; "Kentucky"; "Louisiana";
  "Maine"; "Maryland"; "Massachusetts"; "Michigan"; "Minnesota"; "Mississippi";
  "Missouri"; "Montana"; "Nebraska"; "Nevada"; "New Hampshire"; "New Jersey";
  "New Mexico"; "New York"; "North Carolina"; "North Dakota"; "Ohio"; "Oklahoma";
  "Oregon"; "Pennsylvania"; "Rhode Island"; "South Carolina"; "South Dakota";
  "Tennessee"; "Texas"; "Utah"; "Vermont"; "Virginia"; "Washington";
  "West Virginia"; "Wisconsin"; "Wyoming" ].

Definition MAJOR_CITIES : list string := [
  "New York"; "Los Angeles"; "Chicago"; "Houston"; "Phoenix"; "Philadelphia";
  "San Antonio"; "San Diego"; "Dallas"; "San Jose"; "Austin"; "Jacksonville";
  "Fort Worth"; "Columbus"; "Charlotte"; "San Francisco"; "Indianapolis";
  "Seattle"; "Denver"; "Washington"; "Boston"; "El Paso"; "Nashville";
  "Detroit"; "Oklahoma City"; "Portland"; "Las Vegas"; "Memphis"; "Louisville";
  "Baltimore"; "Milwaukee"; "Albuquerque"; "Tucson"; "Fresno"; "Sacramento";
  "Kansas City"; "Mesa"; "Atlanta"; "Omaha"; "Colorado Springs"; "Raleigh";
  "Virginia Beach"; "Miami"; "Oakland"; "Minneapolis"; "Tulsa"; "Cleveland";
  "Wichita"; "Arlington"; "Tampa"; "New Orleans" ].

Inductive LocationType := LState | LCity.

Record USLocation := mkLocation {
  loc_id : string;
  name : string;
  loc_type : LocationType
}.

Definition getAllUSLocations : list USLocation :=
  let states := imap (fun idx st => mkLocation ("state-" +:+ pretty idx) st LState) US_STATES in
  let cities := imap (fun idx c => mkLocation ("city-" +:+ pretty idx) c LCity) MAJOR_CITIES in
  states ++ cities.

(** Lexicographic comparison of the bytes; a proper prefix comes first. *)
Fixpoint compare_codes (a b : string) : Z :=
  match a, b with
  | EmptyString, EmptyString => 0
  | EmptyString, String _ _ => -1
  | String _ _, EmptyString => 1
  | String x a', String y b' =>
      let nx := Z.of_nat (nat_of_ascii x) in
      let ny := Z.of_nat (nat_of_ascii y) in
      if nx <? ny then -1 else if ny <? nx then 1 else compare_codes a' b'
  end.

(** [a.localeCompare(b)] is a built-in of the runtime, not code of the
    repository.  On names made of letters and spaces, which is all the
    gazetteer holds, the default collation orders by the letters
    regardless of case, the space before every letter, and on a tie puts
    the lower-case letter first.  The properties below use of it only
    that swapping the arguments changes the sign. *)
Definition localeCompare (a b : string) : Z :=
  let primary := compare_codes (AsciiRuntime.toLowerCase a) (AsciiRuntime.toLowerCase b) in
  if primary =? 0 then - compare_codes a b else primary.

Section Filter.
Context {rt : JsRuntime}.

(** The comparator of the [sort] call of [filterUSLocations]. *)
Definition location_order (q : string) (a b : USLocation) : Z :=
  let aLower := toLowerCase (name a) in
  let bLower := toLowerCase (name b) in
  let aExact := String.eqb aLower q in
  let bExact := String.eqb bLower q in
  if aExact && negb bExact then -1
  else if negb aExact && bExact then 1
  else if startsWith aLower q && negb (startsWith bLower q) then -1
  else if negb (startsWith aLower q) && startsWith bLower q then 1
  else localeCompare (name a) (name b).

Definition filterUSLocations (query : string) (limit : nat) : list USLocation :=
  let q := toLowerCase (trim query) in
  if negb (nonempty q) || (js_length q <? 1)%nat then []
  else
    let allLocations := getAllUSLocations in
    let filtered := filter (fun location => includes (toLowerCase (name location)) q = true) allLocations in
    take limit (js_sort (location_order q) filtered).

End Filter.

End UsLocations.

Import UsLocations.

(** ** Exceptions *)

Record JsError := mkError {
  err_status : option Z;
  err_message : string
}.

Inductive exn (A : Type) : Type :=
  | Ok (a : A)
  | Throw (e : JsError).
Arguments Ok {A} a.
Arguments Throw {A} e.

#[global] Instance exn_ret : MRet exn := fun A a => Ok a.

#[global] Instance exn_bind : MBind exn := fun A B k m =>
  match m with Ok a => k a | Throw e => Throw e end.

(** [try { m } catch (e) { h e }] *)
Definition try_catch {A} (m : exn A) (h : JsError -> exn A) : exn A :=
  match m with Ok a => Ok a | Throw e => h e end.

(** ** The collaborators of a request *)

Record Trip := mkTrip {
  trip_id : string;
  trip_origin : string;
  trip_destination : string
}.

(** One element of the array answered by the provider, with the fields
    that the adapter reads.  The fields are strings or absent, as the
    prompt asks.  An origin or a destination of another JSON type that is
    truthy makes [toLowerCase] throw inside the [try] block of the
    adapter, which is the outcome [Throw] of [complete], and one that is
    falsy is read like an absent one; a type that is not a string is read
    like any tag other than [route].  A name, mode or description of
    another JSON type is outside the model: the adapter copies it into the
    label or the description, and nothing else depends on it. *)
Record AIItem := mkAIItem {
  ai_type : option string;
  ai_name : option string;
  ai_destination : option string;
  ai_origin : option string;
  ai_mode : option string;
  ai_description : option string
}.

(** What [JSON.parse(content)] gives: a syntax error, or an object with a
    [suggestions], [routes] or [destinations] array, or anything else. *)
Inductive AIJson :=
  | JParseError
  | JSuggestions (items : list AIItem)
  | JRoutes (items : list AIItem)
  | JDestinations (items : list AIItem)
  | JOther.

Record Env := mkEnv {
  (** [process.env.OPENAI_API_KEY] *)
  OPENAI_API_KEY : option string;
  (** the rows answered by [prisma.trip.findMany] for the handler's
      [where]/[take]/[orderBy], or the failure of the store *)
  findMany : string -> exn (list Trip);
  (** the parsed content of the chat completion for the prompt built from
      the query, or the failure of the call *)
  complete : string -> exn AIJson;
  (** the clock and random part of the identifier of the n-th item *)
  ai_id_suffix : nat -> string
}.

(** ** The three sources *)

Section Sources.
Context {rt : JsRuntime}.

Definition trip_key (t : Trip) : string :=
  toLowerCase (trip_origin t) +:+ arrow +:+ toLowerCase (trip_destination t).

(** [trips.filter(...)] with the [Set] of the keys seen so far. *)
Fixpoint unique_trips (seen : gset string) (trips : list Trip) : list Trip :=
  match trips with
  | [] => []
  | t :: rest =>
      if decide (trip_key t ∈ seen) then unique_trips seen rest
      else t :: unique_trips ({[trip_key t]} ∪ seen) rest
  end.

Definition trip_suggestion (q : string) (t : Trip) : Suggestion :=
  {| id := "db:" +:+ trip_id t;
     label := trip_origin t +:+ " → " +:+ trip_destination t;
     origin := Some (trip_origin t);
     destination := Some (trip_destination t);
     type_ := Some TRoute;
     source := database;
     relevanceScore :=
       calculateRelevanceScore (Some (trip_origin t)) (Some (trip_destination t)) q;
     description := None |}.

Definition getDatabaseSuggestions (env : Env) (query : string) : exn (list Suggestion) :=
  let q := trim query in
  if negb (nonempty q) || (js_length q <? 2)%nat then Ok []
  else
    try_catch
      (trips ← findMany env q;
       let uniqueTrips := unique_trips ∅ trips in
       Ok (map (trip_suggestion q) (take 10 uniqueTrips)))
      (fun error => Ok []).

(** [a || b] on optional strings. *)
Definition js_or (a b : option string) : option string :=
  if truthy a then a else b.

Definition ai_fallback (query : string) : list Suggestion :=
  [ {| id := "ai:1"; label := query +:+ " → Boston (train)";
       origin := Some query; destination := Some "Boston"; type_ := None;
       source := ai; relevanceScore := 30; description := None |};
    {| id := "ai:2"; label := query +:+ " → New York (bus)";
       origin := Some query; destination := Some "New York"; type_ := None;
       source := ai; relevanceScore := 30; description := None |} ].

Definition legacy_route (r : AIItem) : AIItem :=
  {| ai_type := Some "route";
     ai_name := if truthy (ai_origin r) && truthy (ai_destination r)
                then Some (or_empty (ai_origin r) +:+ " → " +:+ or_empty (ai_destination r))
                else js_or (ai_destination r) (ai_origin r);
     ai_destination := ai_destination r;
     ai_origin := ai_origin r;
     ai_mode := ai_mode r;
     ai_description := ai_description r |}.

Definition legacy_destination (d : AIItem) : AIItem :=
  {| ai_type := Some "destination";
     ai_name := js_or (ai_name d) (ai_destination d);
     ai_destination := js_or (ai_destination d) (ai_name d);
     ai_origin := None;
     ai_mode := None;
     ai_description := ai_description d |}.

(** [s.type === 'route' || (s.origin && s.destination && s.origin !== s.destination)] *)
Definition ai_isRoute (s : AIItem) : bool :=
  match ai_type s with Some t => String.eqb t "route" | None => false end
  || (truthy (ai_origin s) && truthy (ai_destination s)
      && negb (String.eqb (or_empty (ai_origin s)) (or_empty (ai_destination s)))).

Definition ai_suggestion (env : Env) (query : string) (idx : nat) (s : AIItem) : Suggestion :=
  let isRoute := ai_isRoute s in
  let destination := or_empty (js_or (ai_destination s) (js_or (ai_name s) (Some ""))) in
  let origin := or_empty (ai_origin s) in
  let mode := or_empty (ai_mode s) in
  let routeShaped := isRoute && nonempty origin && nonempty destination in
  {| id := "ai:" +:+ pretty idx +:+ "-" +:+ ai_id_suffix env idx;
     label := if routeShaped
              then (if nonempty mode
                    then origin +:+ " → " +:+ destination +:+ " (" +:+ mode +:+ ")"
                    else origin +:+ " → " +:+ destination)
              else or_empty (js_or (ai_name s) (Some destination));
     origin := or_undefined origin;
     destination := Some destination;
     type_ := Some (if routeShaped then TRoute else TDestination);
     source := ai;
     relevanceScore := calculateRelevanceScore (Some origin) (Some destination) query;
     description :=
       Some (or_empty (js_or (ai_description s)
                             (Some ("Eco-friendly " +:+ (if isRoute then "route" else "destination"))))) |}.

Definition getAISuggestions (env : Env) (query : string) : exn (list Suggestion) :=
  match OPENAI_API_KEY env with
  | None => Ok (ai_fallback query)
  | Some apiKey =>
      if negb (nonempty apiKey) || String.eqb apiKey "sk-placeholder"
      then Ok (ai_fallback query)
      else
        try_catch
          (jsonData ← complete env query;
           match jsonData with
           | JParseError => Ok []
           | JOther => Ok []
           | JSuggestions items =>
               Ok (imap (ai_suggestion env query) (take 8 items))
           | JRoutes items =>
               Ok (imap (ai_suggestion env query) (take 8 (map legacy_route items)))
           | JDestinations items =>
               Ok (imap (ai_suggestion env query) (take 8 (map legacy_destination items)))
           end)
          (fun error => Ok [])
  end.

Definition location_suggestion (q : string) (location : USLocation) : Suggestion :=
  let relevanceScore :=
    calculateRelevanceScore (Some (name location)) (Some (name location)) q in
  {| id := "static-" +:+ loc_id location;
     label := name location;
     origin := Some (name location);
     destination := Some (name location);
     type_ := Some (match loc_type location with LState => TState | LCity => TCity end);
     source := static;
     relevanceScore := relevanceScore + 10;
     description := None |}.

Definition getStaticSuggestions (query : string) : list Suggestion :=
  let q := trim query in
  if negb (nonempty q) || (js_length q <? 1)%nat then []
  else map (location_suggestion q) (filterUSLocations q 10).

End Sources.

(** ** The rate limiter *)

Record RateRecord := mkRecord {
  count : Z;
  resetTime : Z
}.

(** [checkRateLimit] is the same function in both handlers; they differ in
    the constant [RATE_LIMIT_MAX_REQUESTS].  [rateLimitMap] is a module
    level [Map]: it is threaded through as state, and [record.count++]
    on the object stored in the map is an update of the map. *)
Section RateLimiter.
Variables RATE_LIMIT_WINDOW RATE_LIMIT_MAX_REQUESTS : Z.

Definition checkRateLimit (ip : string) (now : Z) (rateLimitMap : gmap string RateRecord)
  : bool * gmap string RateRecord :=
  match rateLimitMap !! ip with
  | None =>
      (true, <[ip := mkRecord 1 (now + RATE_LIMIT_WINDOW)]> rateLimitMap)
  | Some record =>
      if resetTime record <? now then
        (true, <[ip := mkRecord 1 (now + RATE_LIMIT_WINDOW)]> rateLimitMap)
      else if RATE_LIMIT_MAX_REQUESTS <=? count record then
        (false, rateLimitMap)
      else
        (true, <[ip := mkRecord (count record + 1) (resetTime record)]> rateLimitMap)
  end.

(** A client's requests at the given arrival times, in order: the
    decisions and the final map. *)
Fixpoint requests (ip : string) (times : list Z) (m : gmap string RateRecord)
  : list bool * gmap string RateRecord :=
  match times with
  | [] => ([], m)
  | now :: rest =>
      let '(ok, m') := checkRateLimit ip now m in
      let '(oks, m'') := requests ip rest m' in
      (ok :: oks, m'')
  end.
End RateLimiter.

(** ** Requests and responses *)

Record Request := mkRequest {
  param_q : option string;
  x_forwarded_for : option string;
  x_real_ip : option string
}.

Definition getClientIP (req : Request) : string :=
  or_empty (js_or (js_or (option_map before_comma (x_forwarded_for req)) (x_real_ip req))
                  (Some "unknown")).

Record Formatted := mkFormatted {
  f_id : string;
  f_label : string;
  f_origin : option string;
  f_destination : option string;
  f_type : SuggestionType;
  f_description : option string
}.

Inductive Body :=
  | SuggestionsBody (suggestions : list Formatted) (rateLimited : bool)
  | ErrorBody (error : string).

Record Response := mkResponse {
  status : Z;
  body : Body
}.

(** ** The suggestion handler *)

Module SuggestionsRoute.

Definition RATE_LIMIT_WINDOW : Z := 60 * 1000.
Definition RATE_LIMIT_MAX_REQUESTS : Z := 10.

Section Suggestions.
Context {rt : JsRuntime}.

(** The comparator of the [sort] call of the handler. *)
Definition suggestion_order (a b : Suggestion) : Z :=
  if negb (relevanceScore a =? relevanceScore b) then relevanceScore b - relevanceScore a
  else
    let aPriority := sourcePriority (source a) in
    let bPriority := sourcePriority (source b) in
    if negb (aPriority =? bPriority) then bPriority - aPriority else 0.

(** The formatting of the rate-limited answer. *)
Definition format_limited (s : Suggestion) : Formatted :=
  {| f_id := id s;
     f_label := label s;
     f_origin := or_undefined (or_empty (origin s));
     f_destination := or_undefined (or_empty (destination s));
     f_type := match type_ s with Some t => t | None => TDestination end;
     f_description := None |}.

(** [origin && destination && origin !== destination] *)
Definition isRoute (s : Suggestion) : bool :=
  truthy (origin s) && truthy (destination s)
  && negb (String.eqb (or_empty (origin s)) (or_empty (destination s))).

Definition format (s : Suggestion) : Formatted :=
  {| f_id := id s;
     f_label := label s;
     f_origin := or_undefined (or_empty (origin s));
     f_destination := or_undefined (or_empty (destination s));
     f_type := match type_ s with
               | Some t => t
               | None => if isRoute s then TRoute else TDestination
               end;
     f_description := if truthy (description s) then description s else None |}.

(** The aggregation of the three candidate lists: merge, deduplicate,
    sort, format. *)
Definition aggregate (staticSuggestions dbSuggestions aiSuggestions : list Suggestion)
  : list Formatted :=
  let allSuggestions := (staticSuggestions ++ dbSuggestions ++ aiSuggestions)%list in
  let deduplicated := deduplicateSuggestions allSuggestions in
  let sorted := js_sort suggestion_order deduplicated in
  map format sorted.

(** The body of the [try] block, with the rate-limit map as state. *)
Definition GET_try (env : Env) (req : Request) (now : Z) (m : gmap string RateRecord)
  : exn Response * gmap string RateRecord :=
  let q := trim (or_empty (param_q req)) in
  if negb (nonempty q) || (js_length q <? 1)%nat then
    (Ok (mkResponse 200 (SuggestionsBody [] false)), m)
  else
    let ip := getClientIP req in
    let shouldFetchAI := (2 <=? js_length q)%nat in
    let '(admitted, m') :=
      if shouldFetchAI
      then checkRateLimit RATE_LIMIT_WINDOW RATE_LIMIT_MAX_REQUESTS ip now m
      else (true, m) in
    if shouldFetchAI && negb admitted then
      let staticSuggestions := getStaticSuggestions q in
      (Ok (mkResponse 200 (SuggestionsBody (map format_limited staticSuggestions) true)), m')
    else
      let staticSuggestions := getStaticSuggestions q in
      ('(dbSuggestions, aiSuggestions) ←
         (if shouldFetchAI
          then db ← getDatabaseSuggestions env q;
               ai ← getAISuggestions env q;
               Ok (db, ai)
          else Ok ([], []));
       Ok (mkResponse 200
             (SuggestionsBody (aggregate staticSuggestions dbSuggestions aiSuggestions) false)),
       m').

(** The [catch] block. *)
Definition GET_catch (error : JsError) : Response :=
  if decide (err_status error = Some 429) then
    mkResponse 503 (ErrorBody "AI service rate limit exceeded. Please try again in a moment.")
  else if decide (err_status error = Some 401) then
    mkResponse 503 (ErrorBody "AI service authentication failed. Please check configuration.")
  else mkResponse 200 (SuggestionsBody [] false).

Definition GET (env : Env) (req : Request) (now : Z) (m : gmap string RateRecord)
  : Response * gmap string RateRecord :=
  match GET_try env req now m with
  | (Ok response, m') => (response, m')
  | (Throw error, m') => (GET_catch error, m')
  end.

End Suggestions.

End SuggestionsRoute.

(** ** The older search handler *)

Module SearchRoute.

Definition RATE_LIMIT_WINDOW : Z := 60 * 1000.
Definition RATE_LIMIT_MAX_REQUESTS : Z := 15.

Section Search.
Context {rt : JsRuntime}.

Definition location_entry (loc : USLocation) : Formatted :=
  {| f_id := "static-" +:+ replace_ws (toLowerCase (name loc)) "-";
     f_label := name loc;
     f_origin := None;
     f_destination := Some (name loc);
     f_type := TDestination;
     f_description := Some "Popular destination" |}.

(** [suggestions.filter(...)] with the [Set] of the labels seen so far. *)
Fixpoint unique_labels (seen : gset string) (l : list Formatted) : list Formatted :=
  match l with
  | [] => []
  | s :: rest =>
      let key := toLowerCase (f_label s) in
      if decide (key ∈ seen) then unique_labels seen rest
      else s :: unique_labels ({[key]} ∪ seen) rest
  end.

Definition static_first (a b : Formatted) : Z :=
  let aIsStatic := startsWith (f_id a) "static-" in
  let bIsStatic := startsWith (f_id b) "static-" in
  if aIsStatic && negb bIsStatic then -1
  else if negb aIsStatic && bIsStatic then 1
  else 0.

(** The handler.  Nothing in the body of its [try] block can throw in this
    model, so the [catch] block (status 500) has no counterpart. *)
Definition GET (req : Request) (now : Z) (m : gmap string RateRecord)
  : Response * gmap string RateRecord :=
  let q := trim (or_empty (param_q req)) in
  if (js_length q <? 2)%nat then (mkResponse 200 (SuggestionsBody [] false), m)
  else
    let ip := getClientIP req in
    let '(admitted, m') := checkRateLimit RATE_LIMIT_WINDOW RATE_LIMIT_MAX_REQUESTS ip now m in
    if negb admitted then
      (mkResponse 429 (ErrorBody "Rate limit exceeded. Please try again later."), m')
    else
      let suggestions := map location_entry (filterUSLocations q 5) in
      let unique := unique_labels ∅ suggestions in
      let sorted := js_sort static_first unique in
      (mkResponse 200 (SuggestionsBody (take 10 sorted) false), m').

End Search.

End SearchRoute.

(** ** The distance estimate of the planner *)

(** [estimateDistance] of [app/api/plan/route.ts] reads its arguments
    through [charCodeAt] only, so here a string is the list of its UTF-16
    code units.  [(origin + destination).split('').reduce(...)] is the
    left fold over the concatenation; [%] on the sum is [Z.rem]. *)
Module PlanRoute.

Definition charCodeSum (codes : list Z) : Z :=
  fold_left (fun a c => a + c) codes 0.

Definition estimateDistance (origin destination : list Z) : Z :=
  let seed := charCodeSum (origin ++ destination) in
  100 + Z.rem seed 1100.

(** [Math.max(50, Math.min(1200, distance))], the clamp that
    [generateMockRoutes] applies to the estimate. *)
Definition safeDistance (distance : Z) : Z := Z.max 50 (Z.min 1200 distance).

End PlanRoute.

(** ** Error responses *)

(** [lib/errors.ts].  A thrown value is an [AppError] (with its status
    code and code), another [Error], or anything else.  The subclasses
    only fix the status code and the code: [ValidationError] is
    [AppError message 400 "VALIDATION_ERROR"]; its [fields] are not read
    by [formatError]. *)
Module Errors.





End Errors.

(** The answers of the two small handlers below. *)
Inductive ApiBody :=
  | ApiError (error : string) (code : option string)
  | ApiCreated (message : string) (user_id user_email : string) (user_name : option string)
  | ApiCaption (caption : string).

Record ApiResponse := mkApiResponse {
  api_status : Z;
  api_body : ApiBody
}.


(** ** The signup handler *)

(** [app/api/auth/signup/route.ts].  The request body, the schema
    [signupSchema] of [lib/validators.ts], the user table and the
    password hash are collaborators: the parsed body or the failure of
    [req.json()], the result of [safeParse], and the results or failures
    of [findUnique], [bcrypt.hash] and [create].  A failure of a
    collaborator is an [Error] that is not an [AppError].  The handler
    returns its response and the list of the [create] calls it made. *)
Module SignupRoute.




Section Handler.
Variable Body : Type.





End Handler.

End SignupRoute.

(** ** The location caption handler *)

(** [app/api/location-caption/route.ts].  The chat completion is a
    collaborator: the content of its first choice, or its failure.  The
    replacement [caption.replace(/^[^–-]+[–-]\s*/i, '')] is taken as a
    parameter; the property below holds for whatever it returns. *)
Module CaptionRoute.

Section Caption.
Context {rt : JsRuntime}.

Definition fallback (location : string) : string :=
  location +:+ " – a beautiful destination for your eco-friendly journey.".

Definition GET (replace_lead : string -> string) (apiKey : option string)
    (location : option string) (complete : string -> exn (option string)) : ApiResponse :=
  if negb (truthy location) then
    mkApiResponse 400 (ApiError "Location parameter is required" None)
  else
    let location := or_empty location in
    if negb (truthy apiKey) || String.eqb (or_empty apiKey) "sk-placeholder" then
      mkApiResponse 200 (ApiCaption (fallback location))
    else
      match complete location with
      | Throw openaiError => mkApiResponse 200 (ApiCaption (fallback location))
      | Ok content =>
          let trimmed := trim (or_empty content) in
          let caption := if nonempty trimmed then trimmed else fallback location in
          let finalCaption :=
            if negb (startsWith (toLowerCase caption) (toLowerCase location))
            then location +:+ " – " +:+ replace_lead caption
            else caption in
          mkApiResponse 200 (ApiCaption finalCaption)
      end.

End Caption.

End CaptionRoute.

(** * Definitions for the statements *)

(** A boolean test that reflects a proposition, once its value is known,
    yields the proposition or its negation. *)
Ltac tier_holds H :=
  let P := fresh "Hyes" in
  pose proof (proj1 H eq_refl) as P; clear H.

Ltac tier_fails H :=
  let P := fresh "Hno" in
  assert (P := fun HP => diff_false_true (proj2 H HP)); clear H.

(** The order of the answer: [a] may stand before [b] when its score is
    higher or, on the same score, its source priority is not lower. *)
Definition ranked_before (a b : Suggestion) : Prop :=
  relevanceScore b < relevanceScore a
  ∨ (relevanceScore a = relevanceScore b
     ∧ sourcePriority (source b) ≤ sourcePriority (source a)).

(** The candidates of one score and one source, between which the
    comparator of the handler does not decide. *)
Definition same_rank (v : Z) (src : Source) (s : Suggestion) : Prop :=
  relevanceScore s = v ∧ source s = src.

#[global] Instance same_rank_dec v src s : Decision (same_rank v src s).
Proof. unfold same_rank. apply _. Defined.

Section Statements.
Context {rt : JsRuntime}.

(** [p] is a prefix of [s]; [p] occurs in [s]. *)
Definition is_prefix (p s : string) : Prop := ∃ r, s = p +:+ r.

Definition is_substring (p s : string) : Prop := ∃ l r, s = l +:+ p +:+ r.

(** The tiers of the scorer as propositions over the lower-cased, trimmed
    query [q] and the lower-cased fields [o] and [d]. *)
Definition tier_exact (q o d : string) : Prop := o = q ∨ d = q.

Definition tier_prefix (q o d : string) : Prop := is_prefix q o ∨ is_prefix q d.

Definition tier_substring (q o d : string) : Prop := is_substring q o ∨ is_substring q d.

Definition tier_word (q o d : string) : Prop :=
  ∃ qw w, In qw (split_ws q) ∧ (In w (split_ws o) ∨ In w (split_ws d)) ∧ is_prefix qw w.

(** The scorer of the specification, following its words: the comparison
    is made on the lower-cased, trimmed forms of the query and of both
    fields. *)
Definition spec_relevance (origin destination : option string) (query : string) : Z :=
  let q := trim (toLowerCase query) in
  let o := trim (toLowerCase (or_empty origin)) in
  let d := trim (toLowerCase (or_empty destination)) in
  if String.eqb o q || String.eqb d q then 100
  else if startsWith o q || startsWith d q then 80
  else if includes o q || includes d q then 60
  else if some (fun qw => some (fun ow => startsWith ow qw) (split_ws o)
                          || some (fun dw => startsWith dw qw) (split_ws d)) (split_ws q)
       then 40 else 20.


(** A place without origin and destination, as the [Suggestion] type
    allows. *)
Definition label_only : Suggestion :=
  {| id := "ai:0"; label := "Yosemite"; origin := None; destination := None;
     type_ := Some TDestination; source := ai; relevanceScore := 20;
     description := None |}.


(** The key under which the deduplicator files a candidate. *)
Definition key_of (s : Suggestion) : string :=
  normalizeRoute (origin s) (destination s).

(** [better a b]: [a] wins over [b], by the higher source priority or, on
    the same priority, by the strictly higher relevance score. *)
Definition better (a b : Suggestion) : Prop :=
  sourcePriority (source b) < sourcePriority (source a)
  ∨ (sourcePriority (source a) = sourcePriority (source b)
     ∧ relevanceScore b < relevanceScore a).

(** The test of the loop body: the new candidate replaces the entry. *)
Definition beats (sug existing : Suggestion) : bool :=
  (sourcePriority (source existing) <? sourcePriority (source sug))
  || ((sourcePriority (source sug) =? sourcePriority (source existing))
      && (relevanceScore existing <? relevanceScore sug)).

(** The entry of a key after one more candidate of that key. *)
Definition choose (existing sug : Suggestion) : Suggestion :=
  if beats sug existing then sug else existing.

Definition pick (o : option Suggestion) (sug : Suggestion) : option Suggestion :=
  Some (match o with None => sug | Some existing => choose existing sug end).

(** [w] is the first candidate of the group [g] that no candidate beats:
    everything before it is strictly worse, nothing after it is better. *)
Definition first_max (g : list Suggestion) (w : Suggestion) : Prop :=
  ∃ pre post, g = (pre ++ w :: post)%list
              ∧ Forall (fun x => better w x) pre
              ∧ Forall (fun x => ¬ better x w) post.

(** The entries of the map are keyed by the key of their value, once. *)
Definition seen_wf (seen : SeenMap) : Prop :=
  NoDup (map fst seen) ∧ Forall (fun kv => key_of kv.2 = kv.1) seen.

(** Two candidates for one route, from the history matcher and from the
    generative adapter, with the same score. *)
Definition history_candidate : Suggestion :=
  {| id := "db:t1"; label := "Austin → Boston";
     origin := Some "Austin"; destination := Some "Boston";
     type_ := Some TRoute; source := database; relevanceScore := 80;
     description := None |}.

Definition generated_candidate : Suggestion :=
  {| id := "ai:0-x"; label := "austin → Boston (train)";
     origin := Some "austin"; destination := Some "Boston ";
     type_ := Some TRoute; source := ai; relevanceScore := 80;
     description := Some "Eco-friendly route" |}.

(** No provider credential and an empty trip table. *)
Definition no_provider_env : Env :=
  {| OPENAI_API_KEY := None;
     findMany := fun _ => Ok [];
     complete := fun _ => Ok JOther;
     ai_id_suffix := fun _ => "" |}.

(** A provider credential is configured: the adapter takes the provider
    path, not the fallback. *)
Definition provider_configured (env : Env) : Prop :=
  ∃ apiKey, OPENAI_API_KEY env = Some apiKey
            ∧ nonempty apiKey = true ∧ String.eqb apiKey "sk-placeholder" = false.


(** The [suggestions] array of a response. *)
Definition suggestions_of (r : Response) : list Formatted :=
  match body r with
  | SuggestionsBody l _ => l
  | ErrorBody _ => []
  end.


(** A provider that tags a round trip as a route, answers a pair that
    differs in case only, and answers a place with an origin and a name
    but no destination. *)
Definition tagging_env : Env :=
  {| OPENAI_API_KEY := Some "sk-live";
     findMany := fun _ => Ok [];
     complete := fun _ =>
       Ok (JSuggestions
             [ mkAIItem (Some "route") (Some "Springfield loop") (Some "Springfield")
                 (Some "Springfield") (Some "bus") None;
               mkAIItem None None (Some "Salem") (Some "salem") None None;
               mkAIItem None (Some "Zilker Park") None (Some "Austin") None None ]);
     ai_id_suffix := fun _ => "" |}.




(** The tier of a gazetteer entry for the lower-cased query [q]: 0 for an
    exact name, 1 for a name that starts with [q], 2 for the rest. *)
Definition match_rank (q : string) (loc : USLocation) : nat :=
  if String.eqb (toLowerCase (name loc)) q then 0%nat
  else if startsWith (toLowerCase (name loc)) q then 1%nat
  else 2%nat.

(** The gazetteer entries whose name contains the query. *)
Definition matching_locations (query : string) : list USLocation :=
  filter (fun loc => includes (toLowerCase (name loc)) (toLowerCase (trim query)) = true)
    getAllUSLocations.

(** The keys of a list in the order of their first occurrence, [seen]
    being the keys met so far. *)
Fixpoint first_occurrences (seen : list string) (keys : list string) : list string :=
  match keys with
  | [] => []
  | k :: rest =>
      if decide (k ∈ seen) then first_occurrences seen rest
      else k :: first_occurrences (seen ++ [k]) rest
  end.

(** Every stored counter is at least 1 and at most the quota (at most 1
    for a quota below 1). *)
Definition counters_bounded (N : Z) (m : gmap string RateRecord) : Prop :=
  ∀ k r, m !! k = Some r → 1 ≤ count r ≤ Z.max 1 N.

(** The key by which the history matcher tells trips apart, read from a
    suggestion: the lower-cased origin and destination, untrimmed. *)
Definition row_key (s : Suggestion) : string :=
  toLowerCase (or_empty (origin s)) +:+ arrow +:+ toLowerCase (or_empty (destination s)).

(** A store with three matching rows, two of them the same route up to
    case, and no provider credential. *)
Definition history_env : Env :=
  {| OPENAI_API_KEY := None;
     findMany := fun _ =>
       Ok [ mkTrip "t3" "Boston" "New York"; mkTrip "t2" "boston" "new york";
            mkTrip "t1" "Austin" "Boston" ];
     complete := fun _ => Ok JOther;
     ai_id_suffix := fun _ => "" |}.

(** A provider that answers in the older [routes] shape, with an item
    that has an origin only. *)
Definition legacy_env : Env :=
  {| OPENAI_API_KEY := Some "sk-live";
     findMany := fun _ => Ok [];
     complete := fun _ =>
       Ok (JRoutes [ mkAIItem None None None (Some "Boston") (Some "train") None ]);
     ai_id_suffix := fun _ => "" |}.

(** The first candidate of each identity key, in the order of the list,
    [seen] being the keys met so far. *)
Fixpoint first_of_each_key (seen : list string) (l : list Suggestion) : list Suggestion :=
  match l with
  | [] => []
  | x :: rest =>
      if decide (key_of x ∈ seen) then first_of_each_key seen rest
      else x :: first_of_each_key (seen ++ [key_of x]) rest
  end.

End Statements.

(** * Properties *)

Section Properties.
Context {rt : JsRuntime}.

(** ** Strings *)

Lemma append_cons a s r : String a s +:+ r = String a (s +:+ r).
Proof. reflexivity. Qed.

Lemma append_nil r : "" +:+ r = r.
Proof. reflexivity. Qed.

Lemma startsWith_is_prefix s p : startsWith s p = true ↔ is_prefix p s.
Proof.
  unfold is_prefix. revert s. induction p as [|b p IH]; intros s; simpl.
  - split; [intros _; by exists s | done].
  - destruct s as [|a s]; simpl.
    + split; [done | intros [r Hr]; discriminate].
    + setoid_rewrite append_cons.
      destruct (Ascii.eqb_spec a b) as [->|Hne].
      * rewrite IH. split; intros [r Hr]; exists r; congruence.
      * split; [done | intros [r Hr]; congruence].
Qed.

Lemma includes_is_substring s p : includes s p = true ↔ is_substring p s.
Proof.
  unfold is_substring. induction s as [|a s IH].
  - simpl. rewrite orb_false_r, startsWith_is_prefix. split.
    + intros [r Hr]. by exists "", r.
    + intros [l [r Hr]]. destruct l; [by exists r | discriminate].
  - cbn [includes]. rewrite orb_true_iff, IH, startsWith_is_prefix. split.
    + intros [[r Hr] | [l [r Hr]]].
      * by exists "", r.
      * exists (String a l), r. rewrite append_cons. by rewrite Hr.
    + intros [l [r Hr]]. destruct l as [|c l].
      * left. by exists r.
      * right. exists l, r. rewrite append_cons in Hr. congruence.
Qed.

Lemma some_exists {A} (p : A → bool) (l : list A) :
  some p l = true ↔ ∃ x, In x l ∧ p x = true.
Proof. apply existsb_exists. Qed.

Lemma hasWordMatch_tier_word q o d :
  some (fun qw => some (fun ow => startsWith ow qw) (split_ws o)
                  || some (fun dw => startsWith dw qw) (split_ws d)) (split_ws q) = true
  ↔ tier_word q o d.
Proof.
  rewrite some_exists. split.
  - intros [qw [Hqw H]]. apply orb_true_iff in H.
    destruct H as [H|H]; apply some_exists in H; destruct H as [w [Hw Hp]];
      exists qw, w; rewrite <- startsWith_is_prefix; auto.
  - intros [qw [w [Hqw [Hw Hp]]]]. exists qw. split; [done|].
    apply startsWith_is_prefix in Hp. apply orb_true_iff.
    destruct Hw as [Hw|Hw]; [left | right]; apply some_exists; eauto.
Qed.

(** C3, amended: with [q] the lower-cased, trimmed query and [o], [d] the
    lower-cased (not trimmed) origin and destination, an absent field
    counting as the empty string, the scorer returns the value of the
    first tier that matches, top-down: 100 when [q] equals [o] or [d];
    else 80 when [q] is a prefix of one of them; else 60 when one of them
    contains [q]; else 40 when a whitespace-delimited word of [q] is a
    prefix of a word of [o] or [d]; else 20.  The scorer is a function of
    its arguments only. *)
Theorem calculateRelevanceScore_tiers (origin destination : option string) (query : string) :
  let q := trim (toLowerCase query) in
  let o := toLowerCase (or_empty origin) in
  let d := toLowerCase (or_empty destination) in
  let score := calculateRelevanceScore origin destination query in
  (tier_exact q o d → score = 100)
  ∧ (¬ tier_exact q o d → tier_prefix q o d → score = 80)
  ∧ (¬ tier_exact q o d → ¬ tier_prefix q o d → tier_substring q o d → score = 60)
  ∧ (¬ tier_exact q o d → ¬ tier_prefix q o d → ¬ tier_substring q o d →
     tier_word q o d → score = 40)
  ∧ (¬ tier_exact q o d → ¬ tier_prefix q o d → ¬ tier_substring q o d →
     ¬ tier_word q o d → score = 20).
Proof.
  intros q o d score.
  assert (Hex : String.eqb o q || String.eqb d q = true ↔ tier_exact q o d).
  { rewrite orb_true_iff, !String.eqb_eq. done. }
  assert (Hpre : startsWith o q || startsWith d q = true ↔ tier_prefix q o d).
  { rewrite orb_true_iff, !startsWith_is_prefix. done. }
  assert (Hsub : includes o q || includes d q = true ↔ tier_substring q o d).
  { rewrite orb_true_iff, !includes_is_substring. done. }
  pose proof (hasWordMatch_tier_word q o d) as Hword.
  subst score. unfold calculateRelevanceScore. fold q o d.
  destruct (String.eqb o q || String.eqb d q) eqn:E1;
    [ tier_holds Hex | tier_fails Hex ];
    (destruct (startsWith o q || startsWith d q) eqn:E2;
     [ tier_holds Hpre | tier_fails Hpre ]);
    (destruct (includes o q || includes d q) eqn:E3;
     [ tier_holds Hsub | tier_fails Hsub ]);
    (destruct (some _ (split_ws q)) eqn:E4;
     [ tier_holds Hword | tier_fails Hword ]);
    repeat split; intros; solve [ reflexivity | contradiction ].
Qed.

(** ** The route identity key *)

Lemma nonempty_true s : nonempty s = true ↔ s ≠ "".
Proof. destruct s; simpl; split; done. Qed.

Lemma nonempty_false s : nonempty s = false ↔ s = "".
Proof. destruct s; simpl; split; done. Qed.


(** ** The rate limiter *)

Section RateLimiterFacts.
Variables W N : Z.

Lemma checkRateLimit_fresh ip now (m : gmap string RateRecord) :
  m !! ip = None →
  checkRateLimit W N ip now m = (true, <[ip := mkRecord 1 (now + W)]> m).
Proof. intros H. unfold checkRateLimit. by rewrite H. Qed.

Lemma checkRateLimit_expired ip now (m : gmap string RateRecord) r :
  m !! ip = Some r → resetTime r < now →
  checkRateLimit W N ip now m = (true, <[ip := mkRecord 1 (now + W)]> m).
Proof.
  intros H Hlt. unfold checkRateLimit. rewrite H.
  destruct (Z.ltb_spec (resetTime r) now); [done | lia].
Qed.

Lemma checkRateLimit_deny ip now (m : gmap string RateRecord) r :
  m !! ip = Some r → now ≤ resetTime r → N ≤ count r →
  checkRateLimit W N ip now m = (false, m).
Proof.
  intros H Hle Hc. unfold checkRateLimit. rewrite H.
  destruct (Z.ltb_spec (resetTime r) now); [lia |].
  destruct (Z.leb_spec N (count r)); [done | lia].
Qed.

Lemma checkRateLimit_count ip now (m : gmap string RateRecord) r :
  m !! ip = Some r → now ≤ resetTime r → count r < N →
  checkRateLimit W N ip now m
  = (true, <[ip := mkRecord (count r + 1) (resetTime r)]> m).
Proof.
  intros H Hle Hc. unfold checkRateLimit. rewrite H.
  destruct (Z.ltb_spec (resetTime r) now); [lia |].
  destruct (Z.leb_spec N (count r)); [lia | done].
Qed.

(** Requests inside the window are admitted while the quota lasts, and
    each one adds one to the counter. *)
Lemma requests_in_window ip (times : list Z) :
  ∀ (m : gmap string RateRecord) c R,
    m !! ip = Some (mkRecord c R) →
    Forall (fun t => t ≤ R) times →
    c + Z.of_nat (length times) ≤ N →
    ∃ m', requests W N ip times m = (replicate (length times) true, m')
          ∧ m' !! ip = Some (mkRecord (c + Z.of_nat (length times)) R)
          ∧ ∀ other, other ≠ ip → m' !! other = m !! other.
Proof.
  induction times as [|t times IH]; intros m c R Hm Hall Hc.
  - exists m. simpl. rewrite Z.add_0_r. done.
  - apply Forall_cons in Hall as [Ht Hall]. cbn [length] in Hc.
    cbn [requests].
    rewrite (checkRateLimit_count ip t m (mkRecord c R)); [| done | done | simpl; lia].
    destruct (IH (<[ip := mkRecord (c + 1) R]> m) (c + 1) R) as [m' [Hreq [Hget Hother]]].
    + apply lookup_insert_eq.
    + done.
    + lia.
    + exists m'. simpl count. simpl resetTime. rewrite Hreq. split; [done|]. split.
      * rewrite Hget. f_equal. f_equal. cbn [length]. lia.
      * intros other Hne. rewrite Hother by done. by apply lookup_insert_ne.
Qed.
End RateLimiterFacts.

(** C8. For every client key, quota [N >= 1] and window [W]: when a
    request at [t0] opens a window (no record for the key, or a record
    whose window has elapsed) and [N - 1] more requests arrive inside that
    window, all [N] are admitted and the counter stands at [N]; the next
    request inside the window is denied and leaves the map, hence the
    counter, as it was; and the first request after the window has elapsed
    is admitted and replaces the record by a counter of 1 with a fresh
    window. *)
Theorem rate_limit_boundary (W N : Z) (ip : string) (m : gmap string RateRecord)
    (t0 : Z) (ts : list Z) (t t' : Z) :
  1 ≤ N →
  (m !! ip = None ∨ ∃ r, m !! ip = Some r ∧ resetTime r < t0) →
  Z.of_nat (length ts) = N - 1 →
  Forall (fun u => u ≤ t0 + W) ts →
  t ≤ t0 + W →
  t0 + W < t' →
  ∃ m1, requests W N ip (t0 :: ts) m = (replicate (length (t0 :: ts)) true, m1)
        ∧ m1 !! ip = Some (mkRecord N (t0 + W))
        ∧ checkRateLimit W N ip t m1 = (false, m1)
        ∧ checkRateLimit W N ip t' m1 = (true, <[ip := mkRecord 1 (t' + W)]> m1).
Proof.
  intros HN Hopen Hlen Hts Ht Ht'.
  assert (Hfirst : checkRateLimit W N ip t0 m = (true, <[ip := mkRecord 1 (t0 + W)]> m)).
  { destruct Hopen as [Hnone | [r [Hr Hlt]]].
    - by apply checkRateLimit_fresh.
    - by apply (checkRateLimit_expired W N ip t0 m r). }
  destruct (requests_in_window W N ip ts (<[ip := mkRecord 1 (t0 + W)]> m) 1 (t0 + W))
    as [m1 [Hreq [Hget _]]].
  { apply lookup_insert_eq. }
  { done. }
  { lia. }
  exists m1. cbn [requests]. rewrite Hfirst, Hreq.
  replace (1 + Z.of_nat (length ts)) with N in Hget by lia.
  split; [done|]. split; [done|]. split.
  - apply (checkRateLimit_deny W N ip t m1 (mkRecord N (t0 + W))); simpl; [done | lia | lia].
  - apply (checkRateLimit_expired W N ip t' m1 (mkRecord N (t0 + W))); simpl; [done | lia].
Qed.

Lemma rate_limit_boundary_witness :
  1 ≤ 10
  ∧ (∅ : gmap string RateRecord) !! "203.0.113.7" = None
  ∧ Forall (fun u => u ≤ 1000 + 60000) [1500; 2000; 2500; 3000; 3500; 4000; 4500; 5000; 61000]
  ∧ ∃ m1, requests 60000 10 "203.0.113.7"
            (1000 :: [1500; 2000; 2500; 3000; 3500; 4000; 4500; 5000; 61000]) ∅
          = (replicate 10 true, m1)
          ∧ m1 !! "203.0.113.7" = Some (mkRecord 10 (1000 + 60000))
          ∧ checkRateLimit 60000 10 "203.0.113.7" 61000 m1 = (false, m1)
          ∧ checkRateLimit 60000 10 "203.0.113.7" 61001 m1
            = (true, <[ "203.0.113.7" := mkRecord 1 (61001 + 60000)]> m1).
Proof.
  assert (Hts : Forall (fun u => u ≤ 1000 + 60000)
                  [1500; 2000; 2500; 3000; 3500; 4000; 4500; 5000; 61000]).
  { repeat constructor; lia. }
  split; [lia|]. split; [reflexivity|]. split; [exact Hts|].
  apply (rate_limit_boundary 60000 10 "203.0.113.7" ∅ 1000
           [1500; 2000; 2500; 3000; 3500; 4000; 4500; 5000; 61000] 61000 61001).
  - lia.
  - left. reflexivity.
  - reflexivity.
  - exact Hts.
  - lia.
  - lia.
Defined.

(** C10. For a key that has a record: a request arriving exactly at the
    stored [resetTime] is handled inside the old window, denied when the
    counter has reached the quota and counted against the old counter
    otherwise; every request arriving no later than [resetTime] keeps the
    stored [resetTime] and never lowers the counter; a fresh window, with
    the counter at 1 and [resetTime] at the arrival time plus 60000 ms,
    begins when the arrival time strictly exceeds the stored
    [resetTime]. *)
Theorem window_edge_is_old_window (N : Z) (ip : string) (now : Z)
    (m : gmap string RateRecord) (r : RateRecord) :
  m !! ip = Some r →
  (now = resetTime r →
   checkRateLimit 60000 N ip now m
   = if N <=? count r then (false, m)
     else (true, <[ip := mkRecord (count r + 1) (resetTime r)]> m))
  ∧ (now ≤ resetTime r →
     ∃ r', (checkRateLimit 60000 N ip now m).2 !! ip = Some r'
           ∧ resetTime r' = resetTime r ∧ count r ≤ count r')
  ∧ (resetTime r < now →
     checkRateLimit 60000 N ip now m = (true, <[ip := mkRecord 1 (now + 60000)]> m)).
Proof.
  intros Hm. split; [| split].
  - intros ->. unfold checkRateLimit. rewrite Hm, Z.ltb_irrefl. done.
  - intros Hle. destruct (Z.leb_spec N (count r)) as [Hc | Hc].
    + rewrite (checkRateLimit_deny 60000 N ip now m r) by done.
      exists r. simpl. split; [done|]. split; [done | lia].
    + rewrite (checkRateLimit_count 60000 N ip now m r) by done.
      exists (mkRecord (count r + 1) (resetTime r)). simpl.
      rewrite lookup_insert_eq. split; [done|]. split; [done | lia].
  - intros Hlt. by apply (checkRateLimit_expired 60000 N ip now m r).
Qed.

Lemma window_edge_is_old_window_witness :
  ({[ "203.0.113.7" := mkRecord 10 61000 ]} : gmap string RateRecord) !! "203.0.113.7"
  = Some (mkRecord 10 61000)
  ∧ checkRateLimit 60000 10 "203.0.113.7" 61000 {[ "203.0.113.7" := mkRecord 10 61000 ]}
    = (false, {[ "203.0.113.7" := mkRecord 10 61000 ]})
  ∧ checkRateLimit 60000 10 "203.0.113.7" 61001 {[ "203.0.113.7" := mkRecord 10 61000 ]}
    = (true, <[ "203.0.113.7" := mkRecord 1 (61001 + 60000) ]>
               {[ "203.0.113.7" := mkRecord 10 61000 ]}).
Proof.
  pose proof (window_edge_is_old_window 10 "203.0.113.7" 61000
                {[ "203.0.113.7" := mkRecord 10 61000 ]} (mkRecord 10 61000)
                (lookup_singleton_eq _ _)) as [Hedge _].
  pose proof (window_edge_is_old_window 10 "203.0.113.7" 61001
                {[ "203.0.113.7" := mkRecord 10 61000 ]} (mkRecord 10 61000)
                (lookup_singleton_eq _ _)) as [_ [_ Hfresh]].
  split; [apply lookup_singleton_eq|]. split.
  - exact (Hedge eq_refl).
  - apply Hfresh. simpl. lia.
Defined.

(** ** The deduplicator *)

Lemma beats_better a b : beats a b = true ↔ better a b.
Proof.
  unfold beats, better.
  rewrite orb_true_iff, andb_true_iff, !Z.ltb_lt, Z.eqb_eq. done.
Qed.

Lemma better_asym a b : better a b → ¬ better b a.
Proof. unfold better. lia. Qed.

Lemma better_trans a b c : better a b → better b c → better a c.
Proof. unfold better. lia. Qed.

Lemma better_over_not_better w e x : better w e → ¬ better x e → better w x.
Proof. unfold better. lia. Qed.

Lemma not_better_over_better x w z : ¬ better x w → better z w → better z x.
Proof. unfold better. lia. Qed.

Lemma dedup_step_eq seen sug :
  dedup_step seen sug
  = match seen_get (key_of sug) seen with
    | None => seen_set (key_of sug) sug seen
    | Some existing =>
        if beats sug existing then seen_set (key_of sug) sug seen else seen
    end.
Proof.
  unfold dedup_step, beats, key_of.
  destruct (seen_get _ seen) as [existing|]; [|done].
  destruct (sourcePriority (source existing) <? sourcePriority (source sug)); [done|].
  simpl. by destruct (_ && _).
Qed.

Lemma seen_get_set_eq k v seen : seen_get k (seen_set k v seen) = Some v.
Proof.
  induction seen as [|[k0 v0] seen IH]; simpl.
  - by rewrite String.eqb_refl.
  - destruct (String.eqb k0 k) eqn:E; simpl; rewrite E; done.
Qed.

Lemma seen_get_set_ne k k' v seen :
  k ≠ k' → seen_get k' (seen_set k v seen) = seen_get k' seen.
Proof.
  intros Hne. induction seen as [|[k0 v0] seen IH]; simpl.
  - destruct (String.eqb_spec k k'); done.
  - destruct (String.eqb_spec k0 k) as [->|Hk]; simpl.
    + destruct (String.eqb_spec k k'); done.
    + by rewrite IH.
Qed.

Lemma seen_get_None k seen : k ∉ map fst seen → seen_get k seen = None.
Proof.
  induction seen as [|[k0 v0] seen IH]; simpl; [done|].
  intros Hnot. apply not_elem_of_cons in Hnot as [Hne Hnot].
  destruct (String.eqb_spec k0 k); [congruence | auto].
Qed.

Lemma seen_set_keys k v seen :
  map fst (seen_set k v seen)
  = if decide (k ∈ map fst seen) then map fst seen else (map fst seen ++ [k])%list.
Proof.
  induction seen as [|[k0 v0] seen IH].
  - destruct (decide (k ∈ map fst [])) as [Hin|Hin]; [by apply elem_of_nil in Hin | done].
  - cbn [seen_set map fst]. destruct (String.eqb_spec k0 k) as [->|Hk]; cbn [map fst].
    + destruct (decide (k ∈ k :: map fst seen)) as [Hin|Hin]; [done|].
      exfalso. apply Hin, list_elem_of_here.
    + rewrite IH.
      destruct (decide (k ∈ map fst seen)) as [Hin|Hin];
        destruct (decide (k ∈ k0 :: map fst seen)) as [Hin'|Hin']; try done.
      * exfalso. by auto using list_elem_of_further.
      * exfalso. apply elem_of_cons in Hin' as [?|?]; congruence.
Qed.

Lemma seen_set_wf k v seen : key_of v = k → seen_wf seen → seen_wf (seen_set k v seen).
Proof.
  intros Hk [Hnd Hall]. split.
  - rewrite seen_set_keys. destruct (decide _) as [Hin|Hin]; [done|].
    apply NoDup_app. split; [done|]. split.
    + intros x Hx Hx'. apply list_elem_of_singleton in Hx'. by subst.
    + apply NoDup_singleton.
  - clear Hnd. induction seen as [|[k0 v0] seen IH]; simpl.
    + by repeat constructor.
    + apply Forall_cons in Hall as [H0 Hall].
      destruct (String.eqb_spec k0 k) as [->|Hne]; constructor; auto.
Qed.

Lemma dedup_step_wf seen sug : seen_wf seen → seen_wf (dedup_step seen sug).
Proof.
  intros Hwf. rewrite dedup_step_eq.
  destruct (seen_get _ seen) as [e|]; [destruct (beats sug e)|];
    auto using seen_set_wf.
Qed.

Lemma fold_dedup_step_wf (l : list Suggestion) seen :
  seen_wf seen → seen_wf (fold_left dedup_step l seen).
Proof.
  revert seen. induction l as [|x l IH]; intros seen Hwf; simpl; [done|].
  apply IH. by apply dedup_step_wf.
Qed.

(** What one iteration does to the entry of a key. *)
Lemma seen_get_dedup_step k seen sug :
  seen_get k (dedup_step seen sug)
  = if decide (key_of sug = k) then pick (seen_get k seen) sug else seen_get k seen.
Proof.
  rewrite dedup_step_eq. destruct (decide (key_of sug = k)) as [<-|Hne].
  - unfold pick, choose. destruct (seen_get (key_of sug) seen) as [e|] eqn:E.
    + destruct (beats sug e); [apply seen_get_set_eq | done].
    + apply seen_get_set_eq.
  - destruct (seen_get (key_of sug) seen) as [e|];
      [destruct (beats sug e)|]; auto using seen_get_set_ne.
Qed.

(** The entry of a key after the loop depends on the candidates of that
    key only, in their order. *)
Lemma seen_get_fold k (l : list Suggestion) :
  ∀ seen, seen_get k (fold_left dedup_step l seen)
          = fold_left pick (filter (fun s => key_of s = k) l) (seen_get k seen).
Proof.
  induction l as [|x l IH]; intros seen; [done|].
  cbn [fold_left]. rewrite IH, seen_get_dedup_step.
  destruct (decide (key_of x = k)) as [Hk|Hk].
  - by rewrite filter_cons_True.
  - by rewrite filter_cons_False.
Qed.

Lemma fold_pick_Some (g : list Suggestion) :
  ∀ e, fold_left pick g (Some e) = Some (fold_left choose g e).
Proof. induction g as [|x g IH]; intros e; [done|]. simpl. apply IH. Qed.

Lemma fold_choose_first_max (g : list Suggestion) e :
  first_max (e :: g) (fold_left choose g e).
Proof.
  induction g as [|x g IH] using rev_ind.
  - exists [], []. by repeat constructor.
  - rewrite fold_left_app. cbn [fold_left]. set (w := fold_left choose g e) in *.
    destruct IH as [pre [post [Heq [Hpre Hpost]]]].
    unfold choose. destruct (beats x w) eqn:Hb.
    + apply beats_better in Hb.
      exists (e :: g), []. split; [done|]. split; [|constructor].
      rewrite Heq. apply Forall_app. split; [|constructor].
      * eapply Forall_impl; [exact Hpre|]. intros y Hy. by apply (better_trans x w y).
      * by apply Hb.
      * eapply Forall_impl; [exact Hpost|]. intros y Hy.
        by apply (not_better_over_better y w x).
    + exists pre, (post ++ [x])%list. split.
      * change (e :: g ++ [x])%list with ((e :: g) ++ [x])%list.
        rewrite Heq, <- app_assoc. done.
      * split; [done|]. apply Forall_app. split; [done|].
        constructor; [|constructor]. rewrite <- beats_better, Hb. done.
Qed.

Lemma seen_values_filter k seen :
  seen_wf seen →
  filter (fun s => key_of s = k) (seen_values seen)
  = match seen_get k seen with Some v => [v] | None => [] end.
Proof.
  intros [Hnd Hall]. induction seen as [|[k0 v0] seen IH]; [done|].
  cbn [map fst] in Hnd. apply NoDup_cons in Hnd as [Hnot Hnd].
  apply Forall_cons in Hall as [Hk0 Hall]. simpl in Hk0.
  cbn [seen_values map snd seen_get]. fold (seen_values seen).
  destruct (String.eqb_spec k0 k) as [->|Hne].
  - rewrite filter_cons_True by done. rewrite IH by done.
    by rewrite seen_get_None.
  - rewrite filter_cons_False by congruence. by apply IH.
Qed.

Lemma seen_wf_nil : seen_wf [].
Proof. split; constructor. Qed.

(** The candidates that the deduplicator keeps for a key. *)
Lemma dedup_group k (L : list Suggestion) :
  filter (fun s => key_of s = k) (deduplicateSuggestions L)
  = match filter (fun s => key_of s = k) L with
    | [] => []
    | e :: g => [fold_left choose g e]
    end.
Proof.
  unfold deduplicateSuggestions.
  rewrite seen_values_filter by apply fold_dedup_step_wf, seen_wf_nil.
  rewrite seen_get_fold. cbn [seen_get].
  destruct (filter _ L) as [|e g]; [done|].
  cbn [fold_left]. change (pick None e) with (Some e). by rewrite fold_pick_Some.
Qed.

(** C4. For every candidate list and every identity key: when no
    candidate has the key the result has none, and otherwise the result
    keeps exactly one candidate of that key, the first one of its group
    that no other beats, where a candidate wins by the higher source
    priority (static over database over ai) and, on the same source, by
    the strictly higher relevance score; candidates that tie keep the
    first seen.  In particular, of two candidates with one key and equal
    scores the one of the higher-priority source is kept, in either
    order: static over database, database over ai. *)
Theorem dedup_keeps_group_winner (L : list Suggestion) (k : string) :
  let group := filter (fun s => key_of s = k) L in
  let kept := filter (fun s => key_of s = k) (deduplicateSuggestions L) in
  (group = [] → kept = [])
  ∧ (group ≠ [] → ∃ w, kept = [w] ∧ first_max group w)
  ∧ (∀ a b, key_of a = key_of b → relevanceScore a = relevanceScore b →
            sourcePriority (source b) < sourcePriority (source a) →
            deduplicateSuggestions [a; b] = [a] ∧ deduplicateSuggestions [b; a] = [a]).
Proof.
  intros group kept. subst kept. rewrite dedup_group. fold group.
  split; [by intros -> |]. split.
  - destruct group as [|e g]; [done|]. intros _.
    exists (fold_left choose g e). split; [done|]. apply fold_choose_first_max.
  - intros a b Hkey Hscore Hprio.
    unfold deduplicateSuggestions. cbn [fold_left].
    rewrite !dedup_step_eq. cbn [seen_get seen_set].
    rewrite Hkey, String.eqb_refl.
    assert (Hab : beats b a = false).
    { apply not_true_is_false. rewrite beats_better. unfold better. lia. }
    assert (Hba : beats a b = true).
    { rewrite beats_better. unfold better. lia. }
    rewrite Hab, Hba. done.
Qed.

(** A candidate that the map already dominates leaves the map as it is. *)
Lemma dedup_step_dominated seen sug e :
  seen_get (key_of sug) seen = Some e → ¬ better sug e → dedup_step seen sug = seen.
Proof.
  intros Hget Hnot. rewrite dedup_step_eq, Hget.
  destruct (beats sug e) eqn:Hb; [|done].
  by apply beats_better in Hb.
Qed.

Lemma fold_dedup_step_fixed (l : list Suggestion) seen :
  (∀ x, x ∈ l → dedup_step seen x = seen) → fold_left dedup_step l seen = seen.
Proof.
  induction l as [|x l IH]; intros Hfix; [done|].
  cbn [fold_left]. rewrite Hfix by apply list_elem_of_here.
  apply IH. intros y Hy. by apply Hfix, list_elem_of_further.
Qed.

Lemma first_max_dominates g w x : first_max g w → x ∈ g → ¬ better x w.
Proof.
  intros [pre [post [-> [Hpre Hpost]]]] Hx.
  rewrite Forall_forall in Hpre. rewrite Forall_forall in Hpost.
  apply elem_of_app in Hx as [Hx|Hx].
  - by apply better_asym, Hpre.
  - apply elem_of_cons in Hx as [->|Hx]; [|by apply Hpost].
    unfold better. lia.
Qed.

(** After the loop over [L], every candidate of [L] is dominated by the
    entry of its key. *)
Lemma fold_dedup_step_dominates (L : list Suggestion) x :
  x ∈ L →
  ∃ e, seen_get (key_of x) (fold_left dedup_step L []) = Some e ∧ ¬ better x e.
Proof.
  intros Hx. rewrite seen_get_fold. cbn [seen_get].
  assert (Hin : x ∈ filter (fun s => key_of s = key_of x) L).
  { by apply list_elem_of_filter. }
  destruct (filter _ L) as [|e g] eqn:Hg; [by apply elem_of_nil in Hin|].
  cbn [fold_left]. change (pick None e) with (Some e). rewrite fold_pick_Some.
  eexists. split; [done|].
  eapply first_max_dominates; [apply fold_choose_first_max | done].
Qed.

Lemma seen_get_Some_elem k v seen : seen_get k seen = Some v → (k, v) ∈ seen.
Proof.
  induction seen as [|[k0 v0] seen IH]; simpl; [done|].
  destruct (String.eqb_spec k0 k) as [->|Hne].
  - intros [= ->]. apply list_elem_of_here.
  - intros H. by apply list_elem_of_further, IH.
Qed.

(** The deduplicator invents no candidate. *)
Lemma seen_set_values k v seen x :
  x ∈ seen_values (seen_set k v seen) → x = v ∨ x ∈ seen_values seen.
Proof.
  unfold seen_values. induction seen as [|[k0 v0] seen IH]; simpl.
  - intros Hx. apply list_elem_of_singleton in Hx. by left.
  - destruct (String.eqb k0 k); simpl; intros Hx; apply elem_of_cons in Hx as [->|Hx].
    + by left.
    + right. by apply list_elem_of_further.
    + right. apply list_elem_of_here.
    + destruct (IH Hx) as [->|Hin]; [by left|]. right. by apply list_elem_of_further.
Qed.

Lemma dedup_step_values seen sug x :
  x ∈ seen_values (dedup_step seen sug) → x = sug ∨ x ∈ seen_values seen.
Proof.
  rewrite dedup_step_eq.
  destruct (seen_get _ seen) as [e|]; [destruct (beats sug e)|];
    first [ apply seen_set_values | intros Hx; by right ].
Qed.

Lemma fold_dedup_step_values (l : list Suggestion) x :
  ∀ seen, x ∈ seen_values (fold_left dedup_step l seen) → x ∈ l ∨ x ∈ seen_values seen.
Proof.
  induction l as [|y l IH]; intros seen Hx; simpl in Hx; [by right|].
  destruct (IH _ Hx) as [Hin|Hin].
  - left. by apply list_elem_of_further.
  - destruct (dedup_step_values _ _ _ Hin) as [->|Hin']; [left; apply list_elem_of_here|].
    by right.
Qed.

Lemma deduplicateSuggestions_subset (l : list Suggestion) x :
  x ∈ deduplicateSuggestions l → x ∈ l.
Proof.
  intros Hx. destruct (fold_dedup_step_values l x [] Hx) as [Hin|Hin]; [done|].
  by apply elem_of_nil in Hin.
Qed.

Lemma elem_of_map {A B} (f : A → B) (l : list A) y :
  y ∈ map f l ↔ ∃ x, y = f x ∧ x ∈ l.
Proof.
  rewrite list_elem_of_In, in_map_iff. split; intros [x [H1 H2]]; exists x.
  - by rewrite list_elem_of_In.
  - by rewrite <- list_elem_of_In.
Qed.


(** C7. For every suggestion list [L], deduplicating [L ++ L] gives the
    result of deduplicating [L]: the same candidates in the same order. *)
Theorem dedup_idempotent (L : list Suggestion) :
  deduplicateSuggestions (L ++ L) = deduplicateSuggestions L.
Proof.
  unfold deduplicateSuggestions. rewrite fold_left_app. f_equal.
  apply fold_dedup_step_fixed. intros x Hx.
  destruct (fold_dedup_step_dominates L x Hx) as [e [Hget Hdom]].
  by apply (dedup_step_dominated _ x e).
Qed.

(** ** Sorting and list helpers *)

Lemma sort_insert_perm {A} (cmp : A → A → Z) x (l : list A) :
  sort_insert cmp x l ≡ₚ x :: l.
Proof.
  induction l as [|y l IH]; simpl; [done|].
  destruct (cmp x y <=? 0); [done|].
  rewrite IH. apply Permutation_swap.
Qed.

Lemma js_sort_perm {A} (cmp : A → A → Z) (l : list A) : js_sort cmp l ≡ₚ l.
Proof.
  induction l as [|x l IH]; simpl; [done|].
  rewrite sort_insert_perm. by rewrite IH.
Qed.

Lemma js_sort_length {A} (cmp : A → A → Z) (l : list A) :
  length (js_sort cmp l) = length l.
Proof. apply Permutation_length, js_sort_perm. Qed.

Lemma js_sort_elem_of {A} (cmp : A → A → Z) (l : list A) x :
  x ∈ js_sort cmp l ↔ x ∈ l.
Proof. by rewrite js_sort_perm. Qed.

Lemma Forall_imap_all {A B} (P : B → Prop) (l : list A) :
  ∀ f : nat → A → B, (∀ i x, P (f i x)) → Forall P (imap f l).
Proof.
  induction l as [|x l IH]; intros f Hf; simpl; constructor; [apply Hf|].
  apply IH. intros i y. apply Hf.
Qed.

Lemma Forall_map_all {A B} (P : B → Prop) (f : A → B) (l : list A) :
  (∀ x, P (f x)) → Forall P (map f l).
Proof. intros Hf. induction l; simpl; constructor; auto. Qed.

(** ** The range of the relevance score *)

Lemma calculateRelevanceScore_values origin destination query :
  calculateRelevanceScore origin destination query ∈ [100; 80; 60; 40; 20].
Proof.
  unfold calculateRelevanceScore.
  repeat match goal with
         | |- context [if ?b then _ else _] => destruct b
         end; set_solver.
Qed.

Lemma calculateRelevanceScore_range origin destination query :
  20 ≤ calculateRelevanceScore origin destination query ≤ 100.
Proof.
  pose proof (calculateRelevanceScore_values origin destination query) as H.
  repeat (apply elem_of_cons in H as [->|H]; [lia|]). by apply elem_of_nil in H.
Qed.

(** C2, amended: every suggestion fed to the aggregator has a score in
    [[20, 110]].  A history suggestion and a generative suggestion carry
    one of the values of the scorer (or the flat 30 of the fallback), in
    [[20, 100]]; a gazetteer suggestion carries the value of the scorer
    for its name plus 10, in [[30, 110]], and so can exceed 100. *)
Theorem candidate_score_range (env : Env) (query : string)
    (dbSuggestions aiSuggestions : list Suggestion) :
  getDatabaseSuggestions env query = Ok dbSuggestions →
  getAISuggestions env query = Ok aiSuggestions →
  Forall (fun s => source s = static
                   ∧ relevanceScore s
                     = calculateRelevanceScore (origin s) (destination s) (trim query) + 10
                   ∧ 30 ≤ relevanceScore s ≤ 110)
         (getStaticSuggestions query)
  ∧ Forall (fun s => source s = database ∧ 20 ≤ relevanceScore s ≤ 100) dbSuggestions
  ∧ Forall (fun s => source s = ai ∧ 20 ≤ relevanceScore s ≤ 100) aiSuggestions.
Proof.
  intros Hdb Hai. split; [| split].
  - unfold getStaticSuggestions. destruct (_ || _); [constructor|].
    apply Forall_map_all. intros loc. simpl.
    pose proof (calculateRelevanceScore_range (Some (name loc)) (Some (name loc))
                  (trim query)). split; [done|]. split; [done | lia].
  - unfold getDatabaseSuggestions in Hdb. destruct (_ || _).
    + injection Hdb as <-. constructor.
    + destruct (findMany env (trim query)) as [trips|e]; simpl in Hdb;
        injection Hdb as <-; [|constructor].
      apply Forall_map_all. intros t. simpl. split; [done|].
      apply calculateRelevanceScore_range.
  - assert (Hfallback : Forall (fun s => source s = ai ∧ 20 ≤ relevanceScore s ≤ 100)
                          (ai_fallback query)).
    { repeat constructor; simpl; lia. }
    assert (Hitems : ∀ items, Forall (fun s => source s = ai ∧ 20 ≤ relevanceScore s ≤ 100)
                                (imap (ai_suggestion env query) items)).
    { intros items. apply Forall_imap_all. intros i x. simpl. split; [done|].
      apply calculateRelevanceScore_range. }
    unfold getAISuggestions in Hai.
    destruct (OPENAI_API_KEY env) as [apiKey|]; [|by injection Hai as <-].
    destruct (_ || _); [by injection Hai as <-|].
    destruct (complete env query) as [[| items | items | items |]|e]; simpl in Hai;
      injection Hai as <-; auto; constructor.
Qed.

(** ** The size of the answer *)

Lemma seen_set_length k v seen : (length (seen_set k v seen) ≤ S (length seen))%nat.
Proof.
  induction seen as [|[k0 v0] seen IH]; simpl; [lia|].
  destruct (String.eqb k0 k); simpl; lia.
Qed.

Lemma dedup_step_length seen sug : (length (dedup_step seen sug) ≤ S (length seen))%nat.
Proof.
  rewrite dedup_step_eq. pose proof (seen_set_length (key_of sug) sug seen).
  destruct (seen_get _ seen) as [e|]; [destruct (beats sug e)|]; lia.
Qed.

Lemma fold_dedup_step_length (l : list Suggestion) :
  ∀ seen, (length (fold_left dedup_step l seen) ≤ length l + length seen)%nat.
Proof.
  induction l as [|x l IH]; intros seen; simpl; [lia|].
  pose proof (IH (dedup_step seen x)). pose proof (dedup_step_length seen x). lia.
Qed.

Lemma deduplicateSuggestions_length (l : list Suggestion) :
  (length (deduplicateSuggestions l) ≤ length l)%nat.
Proof.
  unfold deduplicateSuggestions, seen_values. rewrite length_map.
  pose proof (fold_dedup_step_length l []). simpl in *. lia.
Qed.

Lemma take_length_le {A} n (l : list A) : (length (take n l) ≤ n)%nat.
Proof. rewrite length_take. apply Nat.le_min_l. Qed.

(** The handler sorts and formats what the deduplicator returns and cuts
    nothing. *)
Lemma aggregate_length (st db ais : list Suggestion) :
  length (SuggestionsRoute.aggregate st db ais)
  = length (deduplicateSuggestions (st ++ db ++ ais)).
Proof. unfold SuggestionsRoute.aggregate. by rewrite length_map, js_sort_length. Qed.

Lemma filterUSLocations_length query limit :
  (length (filterUSLocations query limit) ≤ limit)%nat.
Proof.
  unfold filterUSLocations. destruct (_ || _); simpl; [lia|].
  apply take_length_le.
Qed.

Lemma getStaticSuggestions_length query : (length (getStaticSuggestions query) ≤ 10)%nat.
Proof.
  unfold getStaticSuggestions. destruct (_ || _); simpl; [lia|].
  rewrite length_map. apply filterUSLocations_length.
Qed.

Lemma getDatabaseSuggestions_length env query l :
  getDatabaseSuggestions env query = Ok l → (length l ≤ 10)%nat.
Proof.
  unfold getDatabaseSuggestions. destruct (_ || _).
  - intros [= <-]. simpl. lia.
  - destruct (findMany env (trim query)) as [trips|e]; simpl; intros [= <-]; simpl; [|lia].
    rewrite length_map. apply take_length_le.
Qed.

Lemma getAISuggestions_length env query l :
  getAISuggestions env query = Ok l → (length l ≤ 8)%nat.
Proof.
  unfold getAISuggestions.
  destruct (OPENAI_API_KEY env) as [apiKey|]; [|intros [= <-]; simpl; lia].
  destruct (_ || _); [intros [= <-]; simpl; lia|].
  destruct (complete env query) as [[| items | items | items |]|e]; simpl;
    intros [= <-]; rewrite ?length_imap; try apply take_length_le; simpl; lia.
Qed.

(** The only bound on the answer of the suggestion handler is the sum of
    the caps of the three sources. *)
Lemma aggregate_at_most_28 env query db ais :
  getDatabaseSuggestions env query = Ok db →
  getAISuggestions env query = Ok ais →
  (length (SuggestionsRoute.aggregate (getStaticSuggestions query) db ais) ≤ 28)%nat.
Proof.
  intros Hdb Hai. rewrite aggregate_length.
  pose proof (deduplicateSuggestions_length (getStaticSuggestions query ++ db ++ ais)) as H.
  rewrite !length_app in H.
  pose proof (getStaticSuggestions_length query).
  pose proof (getDatabaseSuggestions_length env query db Hdb).
  pose proof (getAISuggestions_length env query ais Hai). lia.
Qed.

(** The older search handler does truncate: [unique.slice(0, 10)]. *)
Lemma search_route_at_most_10 req now m st l rl :
  (SearchRoute.GET req now m).1 = mkResponse st (SuggestionsBody l rl) →
  (length l ≤ 10)%nat.
Proof.
  unfold SearchRoute.GET. destruct (_ <? _)%nat.
  - intros [= <- <- <-]. simpl. lia.
  - destruct (checkRateLimit _ _ _ _ _) as [admitted m'].
    destruct admitted; simpl; [|done].
    intros [= <- <- <-]. apply take_length_le.
Qed.

(** ** Degradation *)

(** Every entry of the aggregate is the formatting of a candidate. *)
Lemma aggregate_elem_of st db ais f :
  f ∈ SuggestionsRoute.aggregate st db ais →
  ∃ s, f = SuggestionsRoute.format s ∧ (s ∈ st ∨ s ∈ db ∨ s ∈ ais).
Proof.
  unfold SuggestionsRoute.aggregate. intros Hf.
  apply elem_of_map in Hf as [s [-> Hs]]. exists s. split; [done|].
  apply js_sort_elem_of, deduplicateSuggestions_subset in Hs.
  by rewrite !elem_of_app in Hs.
Qed.

Lemma getDatabaseSuggestions_ok env query :
  ∃ l, getDatabaseSuggestions env query = Ok l.
Proof.
  unfold getDatabaseSuggestions. destruct (_ || _); [by eexists|].
  destruct (findMany env (trim query)); simpl; by eexists.
Qed.

Lemma getAISuggestions_ok env query :
  ∃ l, getAISuggestions env query = Ok l.
Proof.
  unfold getAISuggestions.
  destruct (OPENAI_API_KEY env) as [apiKey|]; [|by eexists].
  destruct (_ || _); [by eexists|].
  destruct (complete env query) as [[| items | items | items |]|e]; simpl; by eexists.
Qed.



(** The result of the [try] block of the handler, case by case. *)
Lemma GET_try_cases env req now m :
  let q := trim (or_empty (param_q req)) in
  let ip := getClientIP req in
  let shouldFetchAI := (2 <=? js_length q)%nat in
  let admitted :=
    (checkRateLimit SuggestionsRoute.RATE_LIMIT_WINDOW
       SuggestionsRoute.RATE_LIMIT_MAX_REQUESTS ip now m).1 in
  (SuggestionsRoute.GET_try env req now m).1
  = if negb (nonempty q) || (js_length q <? 1)%nat
    then Ok (mkResponse 200 (SuggestionsBody [] false))
    else if shouldFetchAI && negb admitted
    then Ok (mkResponse 200
               (SuggestionsBody (map SuggestionsRoute.format_limited (getStaticSuggestions q))
                  true))
    else
      '(db, ais) ← (if shouldFetchAI
                    then db ← getDatabaseSuggestions env q;
                         ais ← getAISuggestions env q;
                         Ok (db, ais)
                    else Ok ([], []));
      Ok (mkResponse 200
            (SuggestionsBody (SuggestionsRoute.aggregate (getStaticSuggestions q) db ais)
               false)).
Proof.
  intros q ip shouldFetchAI admitted. unfold SuggestionsRoute.GET_try.
  fold q ip shouldFetchAI. destruct (_ || _); [done|].
  subst admitted. destruct shouldFetchAI.
  - destruct (checkRateLimit _ _ ip now m) as [ok m']. simpl. by destruct ok.
  - done.
Qed.

Lemma GET_response env req now m :
  (SuggestionsRoute.GET env req now m).1
  = match (SuggestionsRoute.GET_try env req now m).1 with
    | Ok response => response
    | Throw error => SuggestionsRoute.GET_catch error
    end.
Proof.
  unfold SuggestionsRoute.GET.
  by destruct (SuggestionsRoute.GET_try env req now m) as [[response|error] m'].
Qed.



(** ** Classification *)











(** * Further properties of the handlers *)

(** ** Case and whitespace *)

(** X1. In a runtime whose lower-casing and trimming are idempotent and
    commute, the scorer does not see the case of the query or of the
    fields, nor whitespace around the query, and an absent field scores
    like an empty one: the score is that of the lower-cased fields
    against the lower-cased, trimmed query. *)
Theorem calculateRelevanceScore_insensitive `{CL : !JsCaseLaws}
    (origin destination : option string) (query : string) :
  calculateRelevanceScore origin destination query
  = calculateRelevanceScore (Some (toLowerCase (or_empty origin)))
      (Some (toLowerCase (or_empty destination))) (toLowerCase (trim query)).
Proof.
  unfold calculateRelevanceScore. cbn [or_empty].
  rewrite !toLowerCase_idem, (trim_toLowerCase (trim query)), trim_idem,
    <- trim_toLowerCase.
  done.
Qed.

(** X2. In such a runtime the identity key does not see case or
    surrounding whitespace: it is the key of the lower-cased, trimmed
    fields.  It is empty exactly when both fields are absent or blank,
    and a single place has the same key whether it is given as origin or
    as destination. *)
Theorem normalizeRoute_insensitive `{EL : !JsEmptyLaws} `{CL : !JsCaseLaws}
    (origin destination : option string) :
  normalizeRoute origin destination
  = normalizeRoute (Some (trim (toLowerCase (or_empty origin))))
      (Some (trim (toLowerCase (or_empty destination))))
  ∧ (normalizeRoute origin destination = ""
     ↔ trim (or_empty origin) = "" ∧ trim (or_empty destination) = "")
  ∧ normalizeRoute origin None = normalizeRoute None origin.
Proof.
  split; [| split].
  - unfold normalizeRoute. cbn [or_empty].
    by rewrite !trim_toLowerCase, !trim_idem, !toLowerCase_idem.
  - unfold normalizeRoute. rewrite !trim_toLowerCase.
    pose proof toLowerCase_empty as Hlow.
    destruct (toLowerCase (trim (or_empty origin))) as [|c o] eqn:Eo;
      destruct (toLowerCase (trim (or_empty destination))) as [|c' d] eqn:Ed; simpl.
    + apply (proj1 (Hlow _)) in Eo. apply (proj1 (Hlow _)) in Ed. done.
    + split; [done|]. intros [_ H]. apply (proj2 (Hlow _)) in H. congruence.
    + split; [done|]. intros [H _]. apply (proj2 (Hlow _)) in H. congruence.
    + split; [done|]. intros [H _]. apply (proj2 (Hlow _)) in H. congruence.
  - unfold normalizeRoute. cbn [or_empty].
    assert (He : trim (toLowerCase "") = "").
    { rewrite (proj2 (toLowerCase_empty "") eq_refl). apply trim_empty. }
    rewrite He. cbn [nonempty]. rewrite andb_false_r. cbn [andb].
    by destruct (nonempty (trim (toLowerCase (or_empty origin)))) eqn:E;
      [| apply nonempty_false in E].
Qed.

(** ** The gazetteer *)

(** What the filter lets through. *)
Lemma filterUSLocations_elem query limit loc :
  loc ∈ filterUSLocations query limit →
  loc ∈ getAllUSLocations
  ∧ includes (toLowerCase (name loc)) (toLowerCase (trim query)) = true
  ∧ toLowerCase (trim query) ≠ "".
Proof.
  unfold filterUSLocations.
  destruct (nonempty (toLowerCase (trim query))) eqn:Hne; simpl;
    [|intros H; by apply elem_of_nil in H].
  destruct (js_length _ <? 1)%nat; [intros H; by apply elem_of_nil in H|].
  intros Hin. apply subseteq_take, js_sort_elem_of, list_elem_of_filter in Hin
    as [Hinc Hall].
  split; [done|]. split; [done|]. by apply nonempty_true.
Qed.

(** X3. Every place that the gazetteer filter returns is an entry of the
    gazetteer whose lower-cased name contains the trimmed, lower-cased
    query; there are at most [limit] of them; and a query whose trimmed,
    lower-cased form is empty returns nothing. *)
Theorem filterUSLocations_sound (query : string) (limit : nat) :
  Forall (fun loc => loc ∈ getAllUSLocations
                     ∧ is_substring (toLowerCase (trim query)) (toLowerCase (name loc)))
         (filterUSLocations query limit)
  ∧ (length (filterUSLocations query limit) ≤ limit)%nat
  ∧ (toLowerCase (trim query) = "" → filterUSLocations query limit = []).
Proof.
  split; [| split].
  - apply Forall_forall. intros loc Hloc.
    apply filterUSLocations_elem in Hloc as [Hin [Hinc _]].
    split; [done|]. by apply includes_is_substring.
  - apply filterUSLocations_length.
  - intros Hblank. unfold filterUSLocations. by rewrite Hblank.
Qed.

Lemma nonempty_length `{EL : !JsEmptyLaws} s : nonempty s = true → (js_length s <? 1)%nat = false.
Proof.
  intros Hne. apply nonempty_true in Hne. apply Nat.ltb_ge.
  destruct (js_length s) as [|n] eqn:E; [|lia]. by apply js_length_zero in E.
Qed.

(** X4. For a query that is not blank, the gazetteer filter returns
    [limit] places when at least that many match and all the matching
    places otherwise: its length is the smaller of [limit] and the number
    of matching entries, and when they fit it is a rearrangement of
    them. *)
Theorem filterUSLocations_complete `{EL : !JsEmptyLaws} (query : string) (limit : nat) :
  trim query ≠ "" →
  length (filterUSLocations query limit)
  = Nat.min limit (length (matching_locations query))
  ∧ ((length (matching_locations query) ≤ limit)%nat →
     filterUSLocations query limit ≡ₚ matching_locations query).
Proof.
  intros Hq. unfold filterUSLocations, matching_locations.
  assert (Hne : nonempty (toLowerCase (trim query)) = true).
  { apply nonempty_true. by rewrite toLowerCase_empty. }
  rewrite Hne, (nonempty_length _ Hne). cbn [negb orb].
  split.
  - by rewrite length_take, js_sort_length.
  - intros Hfit. rewrite take_ge by (by rewrite js_sort_length).
    apply js_sort_perm.
Qed.

(** ** Sorting *)

Lemma sort_insert_sorted {A} (cmp : A → A → Z) :
  (∀ x y, 0 < cmp x y → cmp y x ≤ 0) →
  ∀ x l, Sorted (fun a b => cmp a b ≤ 0) l →
         Sorted (fun a b => cmp a b ≤ 0) (sort_insert cmp x l).
Proof.
  intros Htotal x l Hl. induction l as [|y l IH]; simpl.
  - by repeat constructor.
  - destruct (Z.leb_spec (cmp x y) 0) as [Hle|Hgt].
    + constructor; [done|]. by constructor.
    + apply Sorted_inv in Hl as [Hl Hhd]. constructor; [by apply IH|].
      destruct l as [|z l]; simpl.
      * constructor. by apply Htotal.
      * destruct (cmp x z <=? 0).
        -- constructor. by apply Htotal.
        -- constructor. by apply HdRel_inv in Hhd.
Qed.

Lemma js_sort_sorted {A} (cmp : A → A → Z) :
  (∀ x y, 0 < cmp x y → cmp y x ≤ 0) →
  ∀ l, Sorted (fun a b => cmp a b ≤ 0) (js_sort cmp l).
Proof.
  intros Htotal l. induction l as [|x l IH]; simpl; [constructor|].
  by apply sort_insert_sorted.
Qed.

Lemma Sorted_weaken {A} (R R' : A → A → Prop) (l : list A) :
  (∀ a b, R a b → R' a b) → Sorted R l → Sorted R' l.
Proof.
  intros Himpl Hl. induction Hl as [|a l Hl IH Hhd]; constructor; [done|].
  destruct Hhd; constructor; auto.
Qed.

(** The sort does not reorder candidates between which the comparator
    does not decide. *)
Lemma sort_insert_filter {A} (cmp : A → A → Z) (P : A → Prop) `{!∀ x, Decision (P x)} :
  (∀ x y, P x → P y → cmp x y ≤ 0) →
  ∀ x l, filter P (sort_insert cmp x l) = filter P (x :: l).
Proof.
  intros Htie x l. induction l as [|y l IH]; simpl; [done|].
  destruct (Z.leb_spec (cmp x y) 0) as [Hle|Hgt]; [done|].
  rewrite (filter_cons _ y), IH, !(filter_cons _ x), (filter_cons _ y).
  destruct (decide (P x)) as [Hx|Hx]; [|done].
  destruct (decide (P y)) as [Hy|Hy]; [|done].
  specialize (Htie x y Hx Hy). lia.
Qed.

Lemma js_sort_filter {A} (cmp : A → A → Z) (P : A → Prop) `{!∀ x, Decision (P x)} :
  (∀ x y, P x → P y → cmp x y ≤ 0) →
  ∀ l, filter P (js_sort cmp l) = filter P l.
Proof.
  intros Htie l. induction l as [|x l IH]; simpl; [done|].
  rewrite (sort_insert_filter cmp P Htie), !filter_cons, IH. done.
Qed.

Lemma ranked_before_trans : Transitive ranked_before.
Proof. intros a b c. unfold ranked_before. lia. Qed.

(** X5. The sort of the handler returns the deduplicated candidates
    rearranged so that scores never increase, that on equal scores the
    source priority never increases (static, database, ai), and that
    candidates of one score and one source keep the order in which the
    deduplicator returned them. *)
Theorem sorted_by_score_then_source (l : list Suggestion) :
  js_sort SuggestionsRoute.suggestion_order l ≡ₚ l
  ∧ StronglySorted ranked_before (js_sort SuggestionsRoute.suggestion_order l)
  ∧ ∀ v src, filter (same_rank v src) (js_sort SuggestionsRoute.suggestion_order l)
             = filter (same_rank v src) l.
Proof.
  split; [apply js_sort_perm|]. split.
  - apply Sorted.Sorted_StronglySorted; [exact ranked_before_trans|].
    apply (Sorted_weaken (fun a b => SuggestionsRoute.suggestion_order a b ≤ 0)).
    + intros a b. unfold SuggestionsRoute.suggestion_order, ranked_before.
      destruct (Z.eqb_spec (relevanceScore a) (relevanceScore b)); simpl; [|lia].
      destruct (Z.eqb_spec (sourcePriority (source a)) (sourcePriority (source b)));
        simpl; lia.
    + apply js_sort_sorted. intros x y. unfold SuggestionsRoute.suggestion_order.
      destruct (Z.eqb_spec (relevanceScore x) (relevanceScore y)) as [Hs|Hs];
        destruct (Z.eqb_spec (relevanceScore y) (relevanceScore x)); simpl; try lia.
      destruct (Z.eqb_spec (sourcePriority (source x)) (sourcePriority (source y)));
        destruct (Z.eqb_spec (sourcePriority (source y)) (sourcePriority (source x)));
        simpl; lia.
  - intros v src. apply js_sort_filter. intros x y [Hx1 Hx2] [Hy1 Hy2].
    unfold SuggestionsRoute.suggestion_order. rewrite Hx1, Hy1, Hx2, Hy2.
    by rewrite !Z.eqb_refl.
Qed.

Lemma compare_codes_antisym a b : compare_codes a b = - compare_codes b a.
Proof.
  revert b. induction a as [|x a IH]; intros [|y b]; simpl; try done.
  destruct (Z.ltb_spec (Z.of_nat (nat_of_ascii x)) (Z.of_nat (nat_of_ascii y)));
    destruct (Z.ltb_spec (Z.of_nat (nat_of_ascii y)) (Z.of_nat (nat_of_ascii x)));
    try lia. apply IH.
Qed.

Lemma localeCompare_antisym a b : localeCompare a b = - localeCompare b a.
Proof.
  unfold localeCompare.
  rewrite (compare_codes_antisym (AsciiRuntime.toLowerCase a)), (compare_codes_antisym a).
  destruct (Z.eqb_spec (- compare_codes (AsciiRuntime.toLowerCase b)
                          (AsciiRuntime.toLowerCase a)) 0);
    destruct (Z.eqb_spec (compare_codes (AsciiRuntime.toLowerCase b)
                            (AsciiRuntime.toLowerCase a)) 0); lia.
Qed.

Lemma startsWith_refl s : startsWith s s = true.
Proof. induction s as [|c s IH]; simpl; [done|]. by rewrite Ascii.eqb_refl. Qed.

Lemma location_order_total q x y :
  0 < location_order q x y → location_order q y x ≤ 0.
Proof.
  unfold location_order. rewrite (localeCompare_antisym (name y) (name x)).
  destruct (String.eqb (toLowerCase (name x)) q);
    destruct (String.eqb (toLowerCase (name y)) q);
    destruct (startsWith (toLowerCase (name x)) q);
    destruct (startsWith (toLowerCase (name y)) q); simpl; lia.
Qed.

Lemma location_order_rank q a b :
  location_order q a b ≤ 0 → (match_rank q a ≤ match_rank q b)%nat.
Proof.
  unfold location_order, match_rank.
  destruct (String.eqb_spec (toLowerCase (name a)) q) as [Ha|Ha];
    destruct (String.eqb_spec (toLowerCase (name b)) q) as [Hb|Hb]; simpl.
  - lia.
  - lia.
  - lia.
  - destruct (startsWith (toLowerCase (name a)) q);
      destruct (startsWith (toLowerCase (name b)) q); simpl; lia.
Qed.

(** The places sorted by the comparator of the filter come in tiers. *)
Lemma js_sort_location_ranked q (l : list USLocation) :
  StronglySorted (fun a b => (match_rank q a ≤ match_rank q b)%nat)
    (js_sort (location_order q) l).
Proof.
  apply Sorted.Sorted_StronglySorted; [intros a b c; lia|].
  apply (Sorted_weaken (fun a b => location_order q a b ≤ 0)).
  - apply location_order_rank.
  - apply js_sort_sorted, location_order_total.
Qed.

(** X6. The places returned by the gazetteer filter come in tiers: the
    names equal to the query first, then the names that start with it,
    then the other names that contain it. *)
Theorem filterUSLocations_tiers (query : string) (limit : nat) :
  StronglySorted
    (fun a b => (match_rank (toLowerCase (trim query)) a
                 ≤ match_rank (toLowerCase (trim query)) b)%nat)
    (filterUSLocations query limit).
Proof.
  unfold filterUSLocations. destruct (_ || _); [constructor|].
  set (q := toLowerCase (trim query)).
  set (sorted := js_sort (location_order q) _).
  pose proof (js_sort_location_ranked q
                (filter (fun location => includes (toLowerCase (name location)) q = true)
                   getAllUSLocations)) as Hsorted.
  fold sorted in Hsorted.
  rewrite <- (take_drop limit sorted) in Hsorted.
  by apply StronglySorted_app_1_l in Hsorted.
Qed.

(** X7. In a runtime whose lower-casing and trimming are idempotent and
    commute, every gazetteer suggestion has the score 110, 90 or 70: its
    name contains the query, so the scorer gives it at least the substring
    tier, and 10 is added.  It has 110 exactly when its name equals the
    trimmed query up to case, and its origin and destination are both its
    label. *)
Theorem static_suggestion_scores `{CL : !JsCaseLaws} (query : string) (s : Suggestion) :
  s ∈ getStaticSuggestions query →
  relevanceScore s ∈ [110; 90; 70]
  ∧ (relevanceScore s = 110 ↔ toLowerCase (label s) = toLowerCase (trim query))
  ∧ origin s = Some (label s) ∧ destination s = Some (label s).
Proof.
  unfold getStaticSuggestions. destruct (_ || _); [intros H; by apply elem_of_nil in H|].
  intros Hs. apply elem_of_map in Hs as [loc [-> Hloc]].
  apply filterUSLocations_elem in Hloc as [_ [Hinc _]]. rewrite trim_idem in Hinc.
  cbn [location_suggestion relevanceScore label origin destination].
  unfold calculateRelevanceScore. cbn [or_empty].
  rewrite trim_toLowerCase, trim_idem, Hinc. cbn [orb].
  destruct (String.eqb_spec (toLowerCase (name loc)) (toLowerCase (trim query))) as [He|He];
    cbn [orb].
  - split; [set_solver|]. done.
  - destruct (startsWith _ _); cbn [orb]; (split; [set_solver|]); split; try done;
      split; try done; intros H; lia.
Qed.

(** ** The deduplicator, continued *)

Lemma seen_get_is_Some k seen : k ∈ map fst seen → is_Some (seen_get k seen).
Proof.
  induction seen as [|[k0 v0] seen IH]; simpl; [intros H; by apply elem_of_nil in H|].
  intros H. destruct (String.eqb_spec k0 k) as [->|Hne]; [by eexists|].
  apply elem_of_cons in H as [H|H]; [congruence | by apply IH].
Qed.

Lemma seen_values_keys seen :
  seen_wf seen → map key_of (seen_values seen) = map fst seen.
Proof.
  intros [_ Hall]. unfold seen_values.
  induction Hall as [|[k v] seen Hk Hall IH]; simpl; [done|].
  simpl in Hk. by rewrite Hk, IH.
Qed.

Lemma dedup_step_keys seen sug :
  map fst (dedup_step seen sug)
  = if decide (key_of sug ∈ map fst seen) then map fst seen
    else (map fst seen ++ [key_of sug])%list.
Proof.
  rewrite dedup_step_eq. destruct (decide (key_of sug ∈ map fst seen)) as [Hin|Hin].
  - destruct (seen_get_is_Some _ _ Hin) as [e ->].
    destruct (beats sug e); [|done]. rewrite seen_set_keys. by rewrite decide_True.
  - rewrite seen_get_None by done. rewrite seen_set_keys. by rewrite decide_False.
Qed.

Lemma fold_dedup_step_keys (l : list Suggestion) :
  ∀ seen, map fst (fold_left dedup_step l seen)
          = (map fst seen ++ first_occurrences (map fst seen) (map key_of l))%list.
Proof.
  induction l as [|x l IH]; intros seen; simpl; [by rewrite app_nil_r|].
  rewrite IH, dedup_step_keys.
  destruct (decide (key_of x ∈ map fst seen)); [done|]. by rewrite <- app_assoc.
Qed.

(** X8. In the result of the deduplicator no two candidates have the same
    identity key, and the keys come in the order in which they first
    occur in the input: a candidate that wins later takes the place of the
    one it replaces. *)
Theorem dedup_keys_unique_in_first_seen_order (L : list Suggestion) :
  NoDup (map key_of (deduplicateSuggestions L))
  ∧ map key_of (deduplicateSuggestions L) = first_occurrences [] (map key_of L).
Proof.
  unfold deduplicateSuggestions.
  pose proof (fold_dedup_step_wf L [] seen_wf_nil) as Hwf.
  rewrite (seen_values_keys _ Hwf). split; [apply Hwf|].
  by rewrite fold_dedup_step_keys.
Qed.

(** X9. The deduplicator returns candidates of its input only, and every
    candidate of the input is represented: the result has a candidate of
    the same identity key that the input candidate does not beat. *)
Theorem dedup_sound_and_covering (L : list Suggestion) :
  (∀ w, w ∈ deduplicateSuggestions L → w ∈ L)
  ∧ (∀ x, x ∈ L → ∃ w, w ∈ deduplicateSuggestions L
                       ∧ key_of w = key_of x ∧ ¬ better x w).
Proof.
  split; [apply deduplicateSuggestions_subset|].
  intros x Hx. destruct (fold_dedup_step_dominates L x Hx) as [e [Hget Hdom]].
  exists e. apply seen_get_Some_elem in Hget.
  pose proof (fold_dedup_step_wf L [] seen_wf_nil) as [_ Hall].
  rewrite Forall_forall in Hall. split; [|split; [exact (Hall _ Hget) | done]].
  unfold deduplicateSuggestions, seen_values. apply elem_of_map. by exists (key_of x, e).
Qed.

Lemma seen_set_fresh k v seen :
  k ∉ map fst seen → seen_set k v seen = (seen ++ [(k, v)])%list.
Proof.
  induction seen as [|[k0 v0] seen IH]; simpl; [done|].
  intros Hnot. apply not_elem_of_cons in Hnot as [Hne Hnot].
  destruct (String.eqb_spec k0 k); [congruence|]. by rewrite IH.
Qed.

Lemma fold_dedup_step_fresh (l : list Suggestion) :
  ∀ seen, NoDup (map fst seen ++ map key_of l) →
          fold_left dedup_step l seen
          = (seen ++ map (fun x => (key_of x, x)) l)%list.
Proof.
  induction l as [|x l IH]; intros seen Hnd; simpl; [by rewrite app_nil_r|].
  simpl in Hnd.
  assert (Hfresh : key_of x ∉ map fst seen).
  { apply NoDup_app in Hnd as [_ [Hdisj _]]. intros Hin.
    apply (Hdisj _ Hin), list_elem_of_here. }
  rewrite dedup_step_eq, seen_get_None, seen_set_fresh by done.
  rewrite IH.
  - by rewrite <- app_assoc.
  - rewrite map_app. simpl. rewrite <- app_assoc. done.
Qed.

(** X10. A list whose candidates have pairwise different identity keys is
    returned unchanged by the deduplicator; in particular deduplicating a
    deduplicated list changes nothing. *)
Theorem dedup_fixpoint (L : list Suggestion) :
  (NoDup (map key_of L) → deduplicateSuggestions L = L)
  ∧ deduplicateSuggestions (deduplicateSuggestions L) = deduplicateSuggestions L.
Proof.
  assert (Hfix : ∀ l, NoDup (map key_of l) → deduplicateSuggestions l = l).
  { intros l Hnd. unfold deduplicateSuggestions. rewrite fold_dedup_step_fresh by done.
    unfold seen_values. simpl. rewrite map_map. simpl. apply map_id. }
  split; [apply Hfix|]. apply Hfix.
  unfold deduplicateSuggestions.
  rewrite (seen_values_keys _ (fold_dedup_step_wf L [] seen_wf_nil)).
  apply (fold_dedup_step_wf L [] seen_wf_nil).
Qed.

(** ** The rate limiter, continued *)

(** X11. A call of the rate limiter for one client key leaves the record
    of every other key as it was, leaves the whole map as it was when it
    denies, never removes a record, and always leaves a record for the key
    it was called with. *)
Theorem checkRateLimit_frame (W N : Z) (ip : string) (now : Z)
    (m : gmap string RateRecord) :
  let result := checkRateLimit W N ip now m in
  (∀ other, other ≠ ip → result.2 !! other = m !! other)
  ∧ (result.1 = false → result.2 = m)
  ∧ (∀ k, is_Some (m !! k) → is_Some (result.2 !! k))
  ∧ is_Some (result.2 !! ip).
Proof.
  unfold checkRateLimit.
  assert (Hins : ∀ r, (∀ other, other ≠ ip → <[ip := r]> m !! other = m !! other)
                      ∧ (∀ k, is_Some (m !! k) → is_Some (<[ip := r]> m !! k))
                      ∧ is_Some (<[ip := r]> m !! ip)).
  { intros r. split; [|split].
    - intros other Hne. by apply lookup_insert_ne.
    - intros k Hk. destruct (decide (ip = k)) as [->|Hne].
      + rewrite lookup_insert_eq. by eexists.
      + by rewrite lookup_insert_ne.
    - rewrite lookup_insert_eq. by eexists. }
  destruct (m !! ip) as [r|] eqn:Hm; simpl.
  - destruct (resetTime r <? now); simpl.
    + destruct (Hins (mkRecord 1 (now + W))) as [H1 [H2 H3]]. done.
    + destruct (N <=? count r); simpl.
      * split; [done|]. split; [done|]. split; [done|]. rewrite Hm. by eexists.
      * destruct (Hins (mkRecord (count r + 1) (resetTime r))) as [H1 [H2 H3]]. done.
  - destruct (Hins (mkRecord 1 (now + W))) as [H1 [H2 H3]]. done.
Qed.

(** X12. The rate limiter keeps every stored counter between 1 and the
    quota: the empty map satisfies this, and a call preserves it. *)
Theorem checkRateLimit_counters_bounded (W N : Z) (ip : string) (now : Z)
    (m : gmap string RateRecord) :
  counters_bounded N ∅
  ∧ (counters_bounded N m → counters_bounded N (checkRateLimit W N ip now m).2).
Proof.
  split; [intros k r H; by rewrite lookup_empty in H|].
  intros Hm. unfold checkRateLimit.
  assert (Hins : ∀ r, 1 ≤ count r ≤ Z.max 1 N → counters_bounded N (<[ip := r]> m)).
  { intros r Hr k r' Hk. destruct (decide (ip = k)) as [->|Hne].
    - rewrite lookup_insert_eq in Hk. by injection Hk as <-.
    - rewrite lookup_insert_ne in Hk by done. by apply (Hm k). }
  destruct (m !! ip) as [r|] eqn:Hip; simpl.
  - destruct (resetTime r <? now); simpl; [apply Hins; simpl; lia|].
    destruct (Z.leb_spec N (count r)); simpl; [done|].
    apply Hins. simpl. pose proof (Hm ip r Hip). lia.
  - apply Hins. simpl. lia.
Qed.

Lemma checkRateLimit_counters_bounded_witness :
  counters_bounded 10 {[ "203.0.113.7" := mkRecord 10 61000 ]}
  ∧ counters_bounded 10
      (checkRateLimit 60000 10 "203.0.113.7" 61001 {[ "203.0.113.7" := mkRecord 10 61000 ]}).2.
Proof.
  assert (H : counters_bounded 10 {[ "203.0.113.7" := mkRecord 10 61000 ]}).
  { intros k r Hk. apply lookup_singleton_Some in Hk as [_ <-]. simpl. lia. }
  split; [exact H|].
  exact (proj2 (checkRateLimit_counters_bounded 60000 10 "203.0.113.7" 61001 _) H).
Defined.

Lemma requests_in_window_decisions (W N : Z) ip (times : list Z) :
  ∀ (m : gmap string RateRecord) c R,
    m !! ip = Some (mkRecord c R) →
    Forall (fun t => t ≤ R) times →
    (requests W N ip times m).1
    = (replicate (Nat.min (length times) (Z.to_nat (N - c))) true
       ++ replicate (length times - Z.to_nat (N - c)) false)%list.
Proof.
  induction times as [|t times IH]; intros m c R Hm Hall; [done|].
  apply Forall_cons in Hall as [Ht Hall]. cbn [requests length].
  destruct (Z.leb_spec N c) as [Hfull|Hroom].
  - rewrite (checkRateLimit_deny W N ip t m (mkRecord c R)) by done.
    specialize (IH m c R Hm Hall).
    destruct (requests W N ip times m) as [oks m'']. simpl in *. rewrite IH.
    replace (Z.to_nat (N - c)) with 0%nat by lia.
    rewrite !Nat.min_0_r, !Nat.sub_0_r. done.
  - rewrite (checkRateLimit_count W N ip t m (mkRecord c R)) by done.
    simpl count. simpl resetTime.
    specialize (IH (<[ip := mkRecord (c + 1) R]> m) (c + 1) R (lookup_insert_eq _ _ _) Hall).
    destruct (requests W N ip times _) as [oks m'']. simpl in *. rewrite IH.
    replace (Z.to_nat (N - c)) with (S (Z.to_nat (N - (c + 1)))) by lia.
    done.
Qed.

(** X13. When a request opens a window, the decisions for it and for any
    number of further requests inside that window are: the opening request
    admitted, then admissions until the quota is used up, then denials
    only.  The opening request is admitted whatever the quota. *)
Theorem window_decisions (W N : Z) (ip : string) (m : gmap string RateRecord)
    (t0 : Z) (ts : list Z) :
  (m !! ip = None ∨ ∃ r, m !! ip = Some r ∧ resetTime r < t0) →
  Forall (fun u => u ≤ t0 + W) ts →
  (requests W N ip (t0 :: ts) m).1
  = (true :: replicate (Nat.min (length ts) (Z.to_nat (N - 1))) true
          ++ replicate (length ts - Z.to_nat (N - 1)) false)%list.
Proof.
  intros Hopen Hts.
  assert (Hfirst : checkRateLimit W N ip t0 m = (true, <[ip := mkRecord 1 (t0 + W)]> m)).
  { destruct Hopen as [Hnone | [r [Hr Hlt]]].
    - by apply checkRateLimit_fresh.
    - by apply (checkRateLimit_expired W N ip t0 m r). }
  cbn [requests]. rewrite Hfirst.
  pose proof (requests_in_window_decisions W N ip ts
                (<[ip := mkRecord 1 (t0 + W)]> m) 1 (t0 + W)
                (lookup_insert_eq _ _ _) Hts) as Hrest.
  destruct (requests W N ip ts _) as [oks m'']. simpl in *. by rewrite Hrest.
Qed.

Lemma window_decisions_witness :
  (∅ : gmap string RateRecord) !! "203.0.113.7" = None
  ∧ Forall (fun u => u ≤ 0 + 60000) [10; 20; 30]
  ∧ (requests 60000 2 "203.0.113.7" (0 :: [10; 20; 30]) ∅).1 = [true; true; false; false].
Proof.
  assert (Hts : Forall (fun u => u ≤ 0 + 60000) [10; 20; 30]) by (repeat constructor; lia).
  split; [reflexivity|]. split; [exact Hts|].
  exact (window_decisions 60000 2 "203.0.113.7" ∅ 0 [10; 20; 30] (or_introl eq_refl) Hts).
Defined.

(** ** The client key *)

Lemma before_comma_no_comma s l r : before_comma s ≠ l +:+ "," +:+ r.
Proof.
  revert l. induction s as [|c s IH]; intros l; simpl.
  - by destruct l.
  - destruct (Ascii.eqb_spec c ","%char) as [->|Hc]; [by destruct l|].
    destruct l as [|c' l].
    + rewrite append_nil, append_cons. congruence.
    + rewrite append_cons. intros [= -> H]. by apply (IH l).
Qed.

Lemma or_empty_js_or a b :
  or_empty (js_or a b) = if truthy a then or_empty a else or_empty b.
Proof. unfold js_or. by destruct (truthy a). Qed.

(** X14. The client key is never empty.  It is the text before the first
    comma of the x-forwarded-for header when that text is not empty (and
    then holds no comma); otherwise the x-real-ip header when that is not
    empty; otherwise the shared key ["unknown"]. *)
Theorem getClientIP_key (req : Request) :
  getClientIP req ≠ ""
  ∧ (∀ s, x_forwarded_for req = Some s → before_comma s ≠ "" →
          getClientIP req = before_comma s
          ∧ ¬ is_substring "," (getClientIP req))
  ∧ ((∀ s, x_forwarded_for req = Some s → before_comma s = "") →
     getClientIP req
     = if truthy (x_real_ip req) then or_empty (x_real_ip req) else "unknown").
Proof.
  unfold getClientIP. rewrite !or_empty_js_or.
  assert (Htruthy : ∀ o, truthy o = true → or_empty o ≠ "").
  { intros o. unfold truthy. by rewrite nonempty_true. }
  split; [| split].
  - destruct (truthy (js_or _ _)) eqn:E1; [|done]. unfold js_or in *.
    destruct (truthy (option_map before_comma (x_forwarded_for req))) eqn:E2;
      by apply Htruthy.
  - intros s Hs Hne. rewrite Hs. cbn [option_map].
    assert (Ht : truthy (Some (before_comma s)) = true) by (by apply nonempty_true).
    unfold js_or. rewrite Ht, Ht. cbn [or_empty]. split; [done|].
    intros [l [r H]]. by apply before_comma_no_comma in H.
  - intros Hfw.
    assert (Ht : truthy (option_map before_comma (x_forwarded_for req)) = false).
    { destruct (x_forwarded_for req) as [s|]; [|done]. simpl.
      unfold truthy. simpl. by rewrite (Hfw s eq_refl). }
    unfold js_or. rewrite Ht. by destruct (truthy (x_real_ip req)).
Qed.

Lemma getClientIP_key_witness :
  x_forwarded_for (mkRequest (Some "an") (Some "203.0.113.7, 10.0.0.1") None)
  = Some "203.0.113.7, 10.0.0.1"
  ∧ before_comma "203.0.113.7, 10.0.0.1" ≠ ""
  ∧ getClientIP (mkRequest (Some "an") (Some "203.0.113.7, 10.0.0.1") None) = "203.0.113.7".
Proof.
  assert (Hne : before_comma "203.0.113.7, 10.0.0.1" ≠ "") by discriminate.
  split; [reflexivity|]. split; [exact Hne|].
  exact (proj1 (proj1 (proj2 (getClientIP_key
                  (mkRequest (Some "an") (Some "203.0.113.7, 10.0.0.1") None)))
                  _ eq_refl Hne)).
Defined.

(** ** The answer of the suggestion handler *)

Lemma GET_state env req now m :
  (SuggestionsRoute.GET env req now m).2 = (SuggestionsRoute.GET_try env req now m).2.
Proof.
  unfold SuggestionsRoute.GET.
  by destruct (SuggestionsRoute.GET_try env req now m) as [[response|error] m'].
Qed.

(** X15. The suggestion handler consults the rate limiter exactly for the
    queries of two code units or more after trimming: for a shorter query
    the map of counters is left as it was, and for a longer one it is the
    map that the limiter returns for the client key, whatever the store
    and the provider do. *)
Theorem GET_rate_limit_state `{EL : !JsEmptyLaws} (env : Env) (req : Request) (now : Z)
    (m : gmap string RateRecord) :
  (SuggestionsRoute.GET env req now m).2
  = if (2 <=? js_length (trim (or_empty (param_q req))))%nat
    then (checkRateLimit SuggestionsRoute.RATE_LIMIT_WINDOW
            SuggestionsRoute.RATE_LIMIT_MAX_REQUESTS (getClientIP req) now m).2
    else m.
Proof.
  rewrite GET_state. unfold SuggestionsRoute.GET_try.
  set (q := trim (or_empty (param_q req))).
  destruct (nonempty q) eqn:Hq.
  - rewrite (nonempty_length _ Hq). cbn [negb orb].
    destruct (2 <=? js_length q)%nat.
    + destruct (checkRateLimit _ _ _ _ _) as [ok m']. by destruct ok.
    + done.
  - apply nonempty_false in Hq. rewrite Hq.
    by rewrite (proj2 (js_length_zero "") eq_refl).
Qed.

(** X16. An answer of the suggestion handler has at most 28 suggestions,
    the sum of the caps of the three sources (10, 10 and 8); an answer to
    a query of fewer than two code units, and an answer flagged as rate
    limited, has at most the 10 gazetteer suggestions. *)
Theorem GET_answer_size (env : Env) (req : Request) (now : Z)
    (m : gmap string RateRecord) :
  let response := (SuggestionsRoute.GET env req now m).1 in
  (length (suggestions_of response) ≤ 28)%nat
  ∧ ((js_length (trim (or_empty (param_q req))) < 2)%nat →
     (length (suggestions_of response) ≤ 10)%nat)
  ∧ (∀ l, body response = SuggestionsBody l true → (length l ≤ 10)%nat).
Proof.
  intros response. subst response.
  pose proof (GET_try_cases env req now m) as Htry. cbv zeta in Htry.
  rewrite GET_response, Htry. clear Htry.
  set (q := trim (or_empty (param_q req))).
  destruct (getDatabaseSuggestions_ok env q) as [db Hdb].
  destruct (getAISuggestions_ok env q) as [ais Hai].
  pose proof (getStaticSuggestions_length q) as Hst.
  pose proof (aggregate_at_most_28 env q db ais Hdb Hai) as Hagg.
  assert (Hone : (length (SuggestionsRoute.aggregate (getStaticSuggestions q) [] []) ≤ 10)%nat).
  { rewrite aggregate_length.
    pose proof (deduplicateSuggestions_length (getStaticSuggestions q ++ [] ++ [])) as H.
    rewrite !length_app in H. cbn [length] in H. lia. }
  destruct (_ || _); [simpl; repeat split; intros; try lia; by simplify_eq|].
  destruct (2 <=? js_length q)%nat eqn:Hlen.
  - destruct (negb _); cbn [andb].
    + cbn [suggestions_of body]. rewrite length_map.
      split; [lia|]. split; [lia|]. intros l [= <-]. by rewrite length_map.
    + rewrite Hdb, Hai. cbn [mbind exn_bind suggestions_of body].
      split; [done|]. split; [|intros l [=]].
      apply Nat.leb_le in Hlen. lia.
  - cbn [andb mbind exn_bind suggestions_of body].
    split; [lia|]. split; [done|]. intros l [=].
Qed.

(** X17. In the answers of the suggestion handler an empty string never
    shows as origin, destination or description: such a field is left
    out. *)
Theorem GET_no_empty_fields (env : Env) (req : Request) (now : Z)
    (m : gmap string RateRecord) (f : Formatted) :
  f ∈ suggestions_of (SuggestionsRoute.GET env req now m).1 →
  f_origin f ≠ Some "" ∧ f_destination f ≠ Some "" ∧ f_description f ≠ Some "".
Proof.
  assert (Hundef : ∀ s, or_undefined s ≠ Some "").
  { intros [|c s]; done. }
  assert (Hformat : ∀ s, f_origin (SuggestionsRoute.format s) ≠ Some ""
                         ∧ f_destination (SuggestionsRoute.format s) ≠ Some ""
                         ∧ f_description (SuggestionsRoute.format s) ≠ Some "").
  { intros s. split; [apply Hundef|]. split; [apply Hundef|]. simpl.
    destruct (description s) as [[|c d]|]; done. }
  pose proof (GET_try_cases env req now m) as Htry. cbv zeta in Htry.
  rewrite GET_response, Htry. clear Htry.
  set (q := trim (or_empty (param_q req))).
  destruct (getDatabaseSuggestions_ok env q) as [db Hdb].
  destruct (getAISuggestions_ok env q) as [ais Hai].
  destruct (_ || _); [intros H; by apply elem_of_nil in H|].
  destruct (_ && negb _).
  - cbn [suggestions_of body]. intros Hf. apply elem_of_map in Hf as [s [-> _]].
    split; [apply Hundef|]. split; [apply Hundef | done].
  - destruct (2 <=? js_length q)%nat; rewrite ?Hdb, ?Hai;
      cbn [mbind exn_bind suggestions_of body]; intros Hf;
      apply aggregate_elem_of in Hf as [s [-> _]]; apply Hformat.
Qed.

(** ** The history matcher *)

Lemma unique_trips_sublist (trips : list Trip) :
  ∀ seen, unique_trips seen trips `sublist_of` trips.
Proof.
  induction trips as [|t trips IH]; intros seen; simpl; [constructor|].
  destruct (decide (trip_key t ∈ seen)); [apply sublist_cons | apply sublist_skip]; apply IH.
Qed.

Lemma unique_trips_fresh (trips : list Trip) :
  ∀ seen t, t ∈ unique_trips seen trips → trip_key t ∉ seen.
Proof.
  induction trips as [|t0 trips IH]; intros seen t; simpl;
    [intros H; by apply elem_of_nil in H|].
  destruct (decide (trip_key t0 ∈ seen)) as [Hin|Hin]; [apply IH|].
  intros Ht. apply elem_of_cons in Ht as [->|Ht]; [done|].
  apply IH in Ht. set_solver.
Qed.

Lemma unique_trips_NoDup (trips : list Trip) :
  ∀ seen, NoDup (map trip_key (unique_trips seen trips)).
Proof.
  induction trips as [|t trips IH]; intros seen; simpl; [constructor|].
  destruct (decide (trip_key t ∈ seen)) as [Hin|Hin]; [apply IH|].
  simpl. apply NoDup_cons. split; [|apply IH].
  intros Hk. apply elem_of_map in Hk as [t' [Heq Ht']].
  apply unique_trips_fresh in Ht'. set_solver.
Qed.

Lemma sublist_map {A B} (f : A → B) (l1 l2 : list A) :
  l1 `sublist_of` l2 → map f l1 `sublist_of` map f l2.
Proof. induction 1; simpl; by constructor. Qed.

(** X18. The history matcher returns, for a query of at least two code
    units after trimming, suggestions built from the rows that the store
    answers for the trimmed query, in the order of the store, each pair
    of lower-cased origin and destination at most once; for a shorter
    query it returns nothing, whatever the store holds. *)
Theorem getDatabaseSuggestions_rows (env : Env) (query : string) (l : list Suggestion) :
  getDatabaseSuggestions env query = Ok l →
  NoDup (map row_key l)
  ∧ ((js_length (trim query) < 2)%nat → l = [])
  ∧ (∀ trips, (2 ≤ js_length (trim query))%nat →
              findMany env (trim query) = Ok trips →
              l `sublist_of` map (trip_suggestion (trim query)) trips).
Proof.
  unfold getDatabaseSuggestions.
  destruct (nonempty (trim query)) eqn:Hq; cbn [negb orb].
  - destruct (Nat.ltb_spec (js_length (trim query)) 2) as [Hlt|Hge].
    + intros [= <-]. split; [constructor|]. split; [done|]. intros trips Hlen. lia.
    + destruct (findMany env (trim query)) as [trips|e]; cbn [mbind exn_bind try_catch];
        intros [= <-].
      * split; [|split; [lia|]].
        -- rewrite map_map. change (fun x => row_key (trip_suggestion (trim query) x))
             with trip_key.
           apply (sublist_NoDup _ (map trip_key (unique_trips ∅ trips)));
             [apply unique_trips_NoDup|].
           apply sublist_map, sublist_take.
        -- intros trips' _ [= <-]. apply sublist_map.
           etrans; [apply sublist_take | apply unique_trips_sublist].
      * split; [constructor|]. split; [lia|]. intros trips _ [=].
  - apply nonempty_false in Hq. intros [= <-]. split; [constructor|]. split; [done|].
    intros trips _ _. apply sublist_nil_l.
Qed.

(** ** The generative adapter *)

Lemma Forall_imap_impl {A B} (Q : A → Prop) (P : B → Prop) (l : list A) :
  ∀ f : nat → A → B, (∀ i x, Q x → P (f i x)) → Forall Q l → Forall P (imap f l).
Proof.
  induction l as [|x l IH]; intros f Hf Hl; simpl; [constructor|].
  apply Forall_cons in Hl as [Hx Hl]. constructor; [by apply Hf|].
  apply IH; [|done]. intros i y. apply Hf.
Qed.

(** X19. With a provider credential, every suggestion of the generative
    adapter has source ai, a type that is route or destination, a
    destination field (possibly empty) and an origin that is absent
    rather than empty; and there are at most eight. *)
Theorem getAISuggestions_provider_items (env : Env) (query : string)
    (l : list Suggestion) :
  provider_configured env →
  getAISuggestions env query = Ok l →
  (length l ≤ 8)%nat
  ∧ Forall (fun s => source s = ai
                     ∧ (type_ s = Some TRoute ∨ type_ s = Some TDestination)
                     ∧ is_Some (destination s)
                     ∧ origin s ≠ Some "") l.
Proof.
  intros [apiKey [Hkey [Hne Hph]]] Hl.
  split; [by apply (getAISuggestions_length env query)|].
  assert (Hitem : ∀ idx item,
            let s := ai_suggestion env query idx item in
            source s = ai
            ∧ (type_ s = Some TRoute ∨ type_ s = Some TDestination)
            ∧ is_Some (destination s)
            ∧ origin s ≠ Some "").
  { intros idx item. cbn [ai_suggestion source type_ destination origin].
    split; [done|]. split; [destruct (_ && _ && _); auto|]. split; [by eexists|].
    by destruct (or_empty (ai_origin item)). }
  unfold getAISuggestions in Hl. rewrite Hkey, Hne, Hph in Hl. cbn [negb orb] in Hl.
  destruct (complete env query) as [[| items | items | items |]|e];
    cbn [mbind exn_bind try_catch] in Hl; injection Hl as <-;
    try constructor; apply Forall_imap_all; intros i x; apply Hitem.
Qed.

(** X20. The two older response shapes of the provider.  A [destinations]
    array yields suggestions of type destination without origin.  A
    [routes] array yields type route exactly for the items that end up
    with a non-empty origin and a non-empty destination, equal or not;
    and an item with an origin and no destination ends up as the route
    from its origin to its origin. *)
Theorem getAISuggestions_legacy_shapes (env : Env) (query : string)
    (l : list Suggestion) (items : list AIItem) :
  provider_configured env →
  getAISuggestions env query = Ok l →
  (complete env query = Ok (JDestinations items) →
   Forall (fun s => type_ s = Some TDestination ∧ origin s = None) l)
  ∧ (complete env query = Ok (JRoutes items) →
     Forall (fun s => type_ s = Some (if truthy (origin s) && truthy (destination s)
                                      then TRoute else TDestination)) l)
  ∧ (∀ item o, complete env query = Ok (JRoutes [item]) →
               ai_origin item = Some o → o ≠ "" → truthy (ai_destination item) = false →
               ∃ s, l = [s] ∧ origin s = Some o ∧ destination s = Some o
                    ∧ type_ s = Some TRoute).
Proof.
  intros [apiKey [Hkey [Hne Hph]]] Hl.
  unfold getAISuggestions in Hl. rewrite Hkey, Hne, Hph in Hl. cbn [negb orb] in Hl.
  split; [| split].
  - intros Hc. rewrite Hc in Hl. cbn [mbind exn_bind try_catch] in Hl. injection Hl as <-.
    apply (Forall_imap_impl (fun x => ai_type x = Some "destination" ∧ ai_origin x = None)).
    + intros i x [Ht Ho]. unfold ai_suggestion, ai_isRoute.
      cbn [type_ origin]. rewrite Ht, Ho. done.
    + apply Forall_take, Forall_map_all. done.
  - intros Hc. rewrite Hc in Hl. cbn [mbind exn_bind try_catch] in Hl. injection Hl as <-.
    apply (Forall_imap_impl (fun x => ai_type x = Some "route")).
    + intros i x Ht. unfold ai_suggestion, ai_isRoute.
      cbn [type_ origin destination]. rewrite Ht. cbn [String.eqb orb andb].
      unfold truthy at 3 4. cbn [or_empty]. unfold or_undefined.
      destruct (nonempty (or_empty (ai_origin x))) eqn:Eo; cbn [or_empty andb]; [|done].
      by rewrite Eo.
    + apply Forall_take, Forall_map_all. done.
  - intros item o Hc Ho Hone Hd. rewrite Hc in Hl.
    cbn [mbind exn_bind try_catch map take imap] in Hl. injection Hl as <-.
    eexists. split; [done|].
    assert (Hto : truthy (Some o) = true) by (by apply nonempty_true).
    assert (Hno : nonempty o = true) by (by apply nonempty_true).
    unfold ai_suggestion, ai_isRoute, legacy_route.
    cbn [type_ origin destination ai_type ai_origin ai_destination ai_name].
    assert (Hdest : ∀ x, js_or (ai_destination item) x = x).
    { intros x. unfold js_or. by rewrite Hd. }
    rewrite Ho, Hd, Hto, !Hdest. cbn [andb]. unfold js_or. rewrite Hto.
    cbn [andb or_empty]. unfold or_undefined. rewrite Hno. done.
Qed.

(** ** The older search handler *)

Lemma js_sort_id {A} (cmp : A → A → Z) (l : list A) :
  (∀ x y, x ∈ l → y ∈ l → cmp x y ≤ 0) → js_sort cmp l = l.
Proof.
  induction l as [|x l IH]; intros Hle; simpl; [done|].
  rewrite IH.
  - destruct l as [|y l]; simpl; [done|].
    destruct (Z.leb_spec (cmp x y) 0) as [_|Hgt]; [done|].
    pose proof (Hle x y (list_elem_of_here _ _)
                  (list_elem_of_further _ _ _ (list_elem_of_here _ _))). lia.
  - intros a b Ha Hb. apply Hle; by apply list_elem_of_further.
Qed.

Lemma unique_labels_sublist (l : list Formatted) :
  ∀ seen, SearchRoute.unique_labels seen l `sublist_of` l.
Proof.
  induction l as [|f l IH]; intros seen; simpl; [constructor|].
  destruct (decide (toLowerCase (f_label f) ∈ seen));
    [apply sublist_cons | apply sublist_skip]; apply IH.
Qed.

Lemma unique_labels_fresh (l : list Formatted) :
  ∀ seen f, f ∈ SearchRoute.unique_labels seen l → toLowerCase (f_label f) ∉ seen.
Proof.
  induction l as [|f0 l IH]; intros seen f; simpl;
    [intros H; by apply elem_of_nil in H|].
  destruct (decide (toLowerCase (f_label f0) ∈ seen)) as [Hin|Hin]; [apply IH|].
  intros Hf. apply elem_of_cons in Hf as [->|Hf]; [done|].
  apply IH in Hf. set_solver.
Qed.

Lemma unique_labels_NoDup (l : list Formatted) :
  ∀ seen, NoDup (map (fun f => toLowerCase (f_label f)) (SearchRoute.unique_labels seen l)).
Proof.
  induction l as [|f l IH]; intros seen; simpl; [constructor|].
  destruct (decide (toLowerCase (f_label f) ∈ seen)) as [Hin|Hin]; [apply IH|].
  simpl. apply NoDup_cons. split; [|apply IH].
  intros Hk. apply elem_of_map in Hk as [f' [Heq Hf']].
  apply unique_labels_fresh in Hf'. set_solver.
Qed.

Lemma checkRateLimit_denied W N ip now (m : gmap string RateRecord) :
  (checkRateLimit W N ip now m).1 = false → (checkRateLimit W N ip now m).2 = m.
Proof.
  unfold checkRateLimit. destruct (m !! ip) as [r|]; [|done].
  destruct (resetTime r <? now); [done|]. by destruct (N <=? count r).
Qed.

(** The sort and the slice of the older handler change nothing: every
    identifier starts with [static-] and at most five places come in. *)
Lemma search_route_list (q : string) :
  take 10 (js_sort SearchRoute.static_first
             (SearchRoute.unique_labels ∅
                (map SearchRoute.location_entry (filterUSLocations q 5))))
  = SearchRoute.unique_labels ∅ (map SearchRoute.location_entry (filterUSLocations q 5)).
Proof.
  set (entries := map SearchRoute.location_entry (filterUSLocations q 5)).
  assert (Hlen : (length (SearchRoute.unique_labels ∅ entries) ≤ 5)%nat).
  { etrans; [apply sublist_length, unique_labels_sublist|].
    subst entries. rewrite length_map. apply filterUSLocations_length. }
  rewrite js_sort_id.
  - apply take_ge. lia.
  - intros x y Hx Hy.
    assert (Hstatic : ∀ f, f ∈ SearchRoute.unique_labels ∅ entries →
                           startsWith (f_id f) "static-" = true).
    { intros f Hf. eapply elem_of_sublist in Hf; [|apply unique_labels_sublist].
      apply elem_of_map in Hf as [loc [-> _]]. reflexivity. }
    unfold SearchRoute.static_first. rewrite (Hstatic x Hx), (Hstatic y Hy). done.
Qed.

(** X21. The older search handler answers a query of fewer than two
    code units after trimming with an empty list, without consulting the rate limiter;
    a denied request with status 429 and an error, the map of counters
    being left as it was; and an admitted request with status 200 and the
    gazetteer matches (at most five), deduplicated by lower-cased label,
    in the order of the gazetteer filter. *)
Theorem search_route_outcomes (req : Request) (now : Z) (m : gmap string RateRecord) :
  let q := trim (or_empty (param_q req)) in
  let decision := checkRateLimit SearchRoute.RATE_LIMIT_WINDOW
                    SearchRoute.RATE_LIMIT_MAX_REQUESTS (getClientIP req) now m in
  ((js_length q < 2)%nat →
   SearchRoute.GET req now m = (mkResponse 200 (SuggestionsBody [] false), m))
  ∧ ((2 ≤ js_length q)%nat → decision.1 = false →
     SearchRoute.GET req now m
     = (mkResponse 429 (ErrorBody "Rate limit exceeded. Please try again later."), m))
  ∧ ((2 ≤ js_length q)%nat → decision.1 = true →
     SearchRoute.GET req now m
     = (mkResponse 200
          (SuggestionsBody
             (SearchRoute.unique_labels ∅
                (map SearchRoute.location_entry (filterUSLocations q 5))) false),
        decision.2)).
Proof.
  intros q decision. unfold SearchRoute.GET. fold q.
  pose proof (checkRateLimit_denied SearchRoute.RATE_LIMIT_WINDOW
                SearchRoute.RATE_LIMIT_MAX_REQUESTS (getClientIP req) now m) as Hden.
  fold decision in Hden |- *.
  destruct (Nat.ltb_spec (js_length q) 2) as [Hlt|Hge].
  - split; [done|]. split; intros; lia.
  - split; [intros; lia|]. destruct decision as [ok m']. simpl in *.
    split; intros _ ->; simpl.
    + by rewrite Hden.
    + by rewrite search_route_list.
Qed.

(** X22. Every entry in an answer of the older search handler is a
    gazetteer place whose lower-cased name contains the query as the
    gazetteer filter normalises it: its type is destination, it has no
    origin, its destination is its label, and its description is the
    standard one.  No two entries have the same lower-cased label, so a
    name that is both a state and a city shows once. *)
Theorem search_route_entries (req : Request) (now : Z) (m : gmap string RateRecord) :
  let q := trim (or_empty (param_q req)) in
  let l := suggestions_of (SearchRoute.GET req now m).1 in
  (length l ≤ 5)%nat
  ∧ NoDup (map (fun f => toLowerCase (f_label f)) l)
  ∧ Forall (fun f => f_type f = TDestination
                     ∧ f_origin f = None
                     ∧ f_destination f = Some (f_label f)
                     ∧ f_description f = Some "Popular destination"
                     ∧ is_substring (toLowerCase (trim q)) (toLowerCase (f_label f))) l.
Proof.
  intros q l. subst l. unfold SearchRoute.GET. fold q.
  destruct (js_length q <? 2)%nat;
    [simpl; split; [lia|]; split; constructor|].
  destruct (checkRateLimit _ _ _ _ _) as [ok m']. destruct ok; cbn [negb];
    [|simpl; split; [lia|]; split; constructor].
  cbn [fst suggestions_of body]. rewrite search_route_list.
  set (entries := map SearchRoute.location_entry (filterUSLocations q 5)).
  split; [| split].
  - etrans; [apply sublist_length, unique_labels_sublist|].
    subst entries. rewrite length_map. apply filterUSLocations_length.
  - apply unique_labels_NoDup.
  - apply Forall_forall. intros f Hf.
    eapply elem_of_sublist in Hf; [|apply unique_labels_sublist].
    apply elem_of_map in Hf as [loc [-> Hloc]].
    apply filterUSLocations_elem in Hloc as [_ [Hinc _]].
    apply includes_is_substring in Hinc. by repeat split.
Qed.

(** ** The distance estimate of the planner *)

Lemma fold_sum_shift (l : list Z) : ∀ a, fold_left (fun a c => a + c) l a
                                         = a + fold_left (fun a c => a + c) l 0.
Proof.
  induction l as [|c l IH]; intros a; simpl; [lia|].
  rewrite (IH (a + c)), (IH (0 + c)). lia.
Qed.

Lemma charCodeSum_cons c l : PlanRoute.charCodeSum (c :: l) = c + PlanRoute.charCodeSum l.
Proof. unfold PlanRoute.charCodeSum. simpl. apply fold_sum_shift. Qed.

Lemma charCodeSum_app l1 l2 :
  PlanRoute.charCodeSum (l1 ++ l2) = PlanRoute.charCodeSum l1 + PlanRoute.charCodeSum l2.
Proof.
  induction l1 as [|c l1 IH]; [done|].
  change ((c :: l1) ++ l2)%list with (c :: (l1 ++ l2))%list.
  rewrite !charCodeSum_cons, IH. lia.
Qed.

Lemma charCodeSum_nonneg l : Forall (fun c => 0 ≤ c) l → 0 ≤ PlanRoute.charCodeSum l.
Proof.
  induction 1 as [|c l Hc Hl IH]; [done|]. rewrite charCodeSum_cons. lia.
Qed.

(** X23. The distance estimate of the planner lies between 100 and 1199
    km for all strings (code units are not negative), so the clamp to
    [50, 1200] that follows it never changes it; and the estimate is the
    same in both directions. *)
Theorem estimateDistance_range (origin destination : list Z) :
  Forall (fun c => 0 ≤ c) origin →
  Forall (fun c => 0 ≤ c) destination →
  100 ≤ PlanRoute.estimateDistance origin destination ≤ 1199
  ∧ PlanRoute.safeDistance (PlanRoute.estimateDistance origin destination)
    = PlanRoute.estimateDistance origin destination
  ∧ PlanRoute.estimateDistance origin destination
    = PlanRoute.estimateDistance destination origin.
Proof.
  intros Ho Hd. unfold PlanRoute.estimateDistance, PlanRoute.safeDistance.
  rewrite !charCodeSum_app.
  pose proof (charCodeSum_nonneg _ Ho). pose proof (charCodeSum_nonneg _ Hd).
  rewrite (Z.add_comm (PlanRoute.charCodeSum destination)).
  set (seed := PlanRoute.charCodeSum origin + PlanRoute.charCodeSum destination).
  assert (Hrem : 0 ≤ Z.rem seed 1100 < 1100).
  { rewrite Z.rem_mod_nonneg by lia. apply Z.mod_pos_bound. lia. }
  lia.
Qed.

Lemma estimateDistance_range_witness :
  Forall (fun c => 0 ≤ c) [66; 111; 115; 116; 111; 110]
  ∧ Forall (fun c => 0 ≤ c) [89; 111; 114; 107]
  ∧ 100 ≤ PlanRoute.estimateDistance [66; 111; 115; 116; 111; 110] [89; 111; 114; 107] ≤ 1199.
Proof.
  assert (Ho : Forall (fun c => 0 ≤ c) [66; 111; 115; 116; 111; 110])
    by (repeat constructor; lia).
  assert (Hd : Forall (fun c => 0 ≤ c) [89; 111; 114; 107]) by (repeat constructor; lia).
  split; [exact Ho|]. split; [exact Hd|].
  exact (proj1 (estimateDistance_range _ _ Ho Hd)).
Defined.

(** ** Trust order in the merged list *)

(** X24. A gazetteer candidate is never displaced by a candidate of
    another source: when the merged list has a static candidate, the
    candidate kept for its identity key is static too, with a score that
    is not lower; and a database candidate is displaced by static
    candidates only, never by a generative one. *)
Theorem dedup_trusts_sources (L : list Suggestion) (x : Suggestion) :
  x ∈ L →
  ∃ w, w ∈ deduplicateSuggestions L
       ∧ key_of w = key_of x
       ∧ (source x = static → source w = static ∧ relevanceScore x ≤ relevanceScore w)
       ∧ (source x = database → source w ≠ ai).
Proof.
  intros Hx. destruct (fold_dedup_step_dominates L x Hx) as [e [Hget Hdom]].
  exists e. apply seen_get_Some_elem in Hget.
  pose proof (fold_dedup_step_wf L [] seen_wf_nil) as [_ Hall].
  rewrite Forall_forall in Hall. split; [|split; [exact (Hall _ Hget)|]].
  - unfold deduplicateSuggestions, seen_values. apply elem_of_map. by exists (key_of x, e).
  - unfold better in Hdom. split; intros Hsrc; rewrite Hsrc in Hdom;
      destruct (source e); simpl in Hdom;
      first [ exfalso; lia | repeat split; try done; lia ].
Qed.

(** X25. A query whose lower-cased, trimmed form is empty matches every
    candidate: the scorer returns 100 when the origin or the destination
    is absent or empty, and 80 otherwise, never a lower tier. *)
Theorem calculateRelevanceScore_blank_query `{EL : !JsEmptyLaws}
    (origin destination : option string) (query : string) :
  trim (toLowerCase query) = "" →
  calculateRelevanceScore origin destination query
  = if nonempty (or_empty origin) && nonempty (or_empty destination) then 80 else 100.
Proof.
  intros Hblank. unfold calculateRelevanceScore. rewrite Hblank.
  assert (Hfield : ∀ s, String.eqb (toLowerCase s) "" = negb (nonempty s)).
  { intros s. destruct (String.eqb_spec (toLowerCase s) "") as [He|He].
    - apply (proj1 (toLowerCase_empty s)) in He. by rewrite He.
    - destruct s; [|done]. exfalso. apply He. by apply (proj2 (toLowerCase_empty "")). }
  rewrite !Hfield.
  destruct (nonempty (or_empty origin)); [|done].
  destruct (nonempty (or_empty destination)); done.
Qed.

(** ** Answers built from the gazetteer alone *)

Lemma js_sort_sorted_id {A} (cmp : A → A → Z) (l : list A) :
  StronglySorted (fun a b => cmp a b ≤ 0) l → js_sort cmp l = l.
Proof.
  induction 1 as [|x l Hl IH Hx]; simpl; [done|].
  rewrite IH. destruct Hx as [|y l Hy _]; simpl; [done|].
  by destruct (Z.leb_spec (cmp x y) 0) as [_|Hgt]; [|lia].
Qed.

Lemma StronglySorted_weaken {A} (R R' : A → A → Prop) (l : list A) :
  (∀ a b, R a b → R' a b) → StronglySorted R l → StronglySorted R' l.
Proof.
  intros Himpl. induction 1 as [|x l Hl IH Hx]; constructor; [done|].
  eapply Forall_impl; [exact Hx|]. apply Himpl.
Qed.

Lemma StronglySorted_sublist {A} (R : A → A → Prop) (l1 l2 : list A) :
  l1 `sublist_of` l2 → StronglySorted R l2 → StronglySorted R l1.
Proof.
  induction 1 as [|x l1 l2 Hsub IH|x l1 l2 Hsub IH]; intros Hs; [done| |].
  - apply StronglySorted_inv in Hs as [Hs Hx]. constructor; [by apply IH|].
    rewrite Forall_forall in Hx. apply Forall_forall. intros y Hy.
    apply Hx. by eapply elem_of_sublist.
  - apply StronglySorted_inv in Hs as [Hs _]. by apply IH.
Qed.

Lemma StronglySorted_map_on {A B} (P : A → Prop) (R' : A → A → Prop) (R : B → B → Prop)
    (f : A → B) (l : list A) :
  (∀ a b, P a → P b → R' a b → R (f a) (f b)) →
  Forall P l → StronglySorted R' l → StronglySorted R (map f l).
Proof.
  intros Hf HP Hs. induction Hs as [|x l Hl IH Hx]; simpl; [constructor|].
  apply Forall_cons in HP as [Px HP]. constructor; [by apply IH|].
  rewrite Forall_forall in Hx, HP. apply Forall_forall. intros y Hy.
  apply elem_of_map in Hy as [a [-> Ha]]. apply Hf; auto.
Qed.

Lemma location_suggestion_score `{CL : !JsCaseLaws} query loc :
  includes (toLowerCase (name loc)) (toLowerCase (trim query)) = true →
  relevanceScore (location_suggestion (trim query) loc)
  = 110 - 20 * Z.of_nat (match_rank (toLowerCase (trim query)) loc).
Proof.
  intros Hinc. cbn [location_suggestion relevanceScore].
  unfold calculateRelevanceScore, match_rank. cbn [or_empty].
  rewrite trim_toLowerCase, trim_idem, Hinc. cbn [orb].
  destruct (String.eqb _ _); cbn [orb]; [done|].
  by destruct (startsWith _ _).
Qed.

Lemma first_of_each_key_sublist (l : list Suggestion) :
  ∀ seen, first_of_each_key seen l `sublist_of` l.
Proof.
  induction l as [|x l IH]; intros seen; simpl; [constructor|].
  destruct (decide (key_of x ∈ seen)); [apply sublist_cons | apply sublist_skip]; apply IH.
Qed.

(** On a list in which no candidate beats an earlier one, the
    deduplicator keeps the first candidate of each key. *)
Lemma fold_dedup_step_keep_first (l : list Suggestion) :
  ∀ seen,
    seen_wf seen →
    (∀ e x, e ∈ seen_values seen → x ∈ l → ¬ better x e) →
    StronglySorted (fun a b => ¬ better b a) l →
    seen_values (fold_left dedup_step l seen)
    = (seen_values seen ++ first_of_each_key (map fst seen) l)%list.
Proof.
  induction l as [|x l IH]; intros seen Hwf Hdom Hs; simpl; [by rewrite app_nil_r|].
  apply StronglySorted_inv in Hs as [Hs Hx]. rewrite Forall_forall in Hx.
  destruct (decide (key_of x ∈ map fst seen)) as [Hin|Hin].
  - destruct (seen_get_is_Some _ _ Hin) as [e He].
    rewrite (dedup_step_dominated seen x e He).
    + apply IH; [done| |done]. intros e' y He' Hy. apply Hdom; [done|].
      by apply list_elem_of_further.
    + apply Hdom; [|apply list_elem_of_here].
      apply seen_get_Some_elem in He. unfold seen_values. apply elem_of_map.
      by exists (key_of x, e).
  - rewrite dedup_step_eq, seen_get_None, seen_set_fresh by done.
    rewrite IH.
    + unfold seen_values. rewrite !map_app. simpl. by rewrite <- app_assoc.
    + rewrite <- (seen_set_fresh _ x) by done. by apply seen_set_wf.
    + intros e y He Hy. unfold seen_values in He. rewrite map_app in He.
      apply elem_of_app in He as [He|He].
      * apply Hdom; [done | by apply list_elem_of_further].
      * apply list_elem_of_singleton in He. subst e. by apply Hx.
    + done.
Qed.

(** The gazetteer suggestions come with scores that never increase. *)
Lemma getStaticSuggestions_sorted `{CL : !JsCaseLaws} query :
  StronglySorted (fun a b => source a = static ∧ source b = static
                             ∧ relevanceScore b ≤ relevanceScore a)
    (getStaticSuggestions query).
Proof.
  unfold getStaticSuggestions. destruct (_ || _); [constructor|].
  apply (StronglySorted_map_on
           (fun loc => includes (toLowerCase (name loc)) (toLowerCase (trim query)) = true)
           (fun a b => (match_rank (toLowerCase (trim query)) a
                        ≤ match_rank (toLowerCase (trim query)) b)%nat)).
  - intros a b Ha Hb Hrank. split; [done|]. split; [done|].
    rewrite !location_suggestion_score by done. lia.
  - apply Forall_forall. intros loc Hloc.
    apply filterUSLocations_elem in Hloc as [_ [Hinc _]]. by rewrite trim_idem in Hinc.
  - unfold filterUSLocations. destruct (_ || _); [constructor|].
    rewrite trim_idem.
    set (sorted := js_sort _ _).
    pose proof (js_sort_location_ranked (toLowerCase (trim query))
                  (filter (fun location =>
                             includes (toLowerCase (name location))
                               (toLowerCase (trim query)) = true)
                     getAllUSLocations)) as Hsorted.
    fold sorted in Hsorted. rewrite <- (take_drop 10 sorted) in Hsorted.
    by apply StronglySorted_app_1_l in Hsorted.
Qed.

(** X26. In a runtime with the laws of the built-ins, when the history
    matcher and the generative adapter contribute nothing, the aggregate
    is the list of gazetteer suggestions in the order of the gazetteer
    filter, with the later candidates of a repeated identity key removed:
    the deduplicator replaces nothing and the sort moves nothing.  This
    is the answer to every query of one code unit. *)
Theorem gazetteer_only_answer `{EL : !JsEmptyLaws} `{CL : !JsCaseLaws} (query : string) :
  SuggestionsRoute.aggregate (getStaticSuggestions query) [] []
  = map SuggestionsRoute.format (first_of_each_key [] (getStaticSuggestions query))
  ∧ ∀ env req now m,
      js_length (trim (or_empty (param_q req))) = 1%nat →
      (SuggestionsRoute.GET env req now m).1
      = mkResponse 200
          (SuggestionsBody
             (SuggestionsRoute.aggregate
                (getStaticSuggestions (trim (or_empty (param_q req)))) [] [])
             false).
Proof.
  split.
  - unfold SuggestionsRoute.aggregate. rewrite !app_nil_r.
    pose proof (getStaticSuggestions_sorted query) as Hbase.
    assert (Hdedup : deduplicateSuggestions (getStaticSuggestions query)
                     = first_of_each_key [] (getStaticSuggestions query)).
    { unfold deduplicateSuggestions.
      rewrite fold_dedup_step_keep_first; [done | apply seen_wf_nil | |].
      - intros e x He. by apply elem_of_nil in He.
      - eapply StronglySorted_weaken; [|exact Hbase].
        intros a b [Ha [Hb Hle]]. unfold better. rewrite Ha, Hb. lia. }
    rewrite Hdedup. f_equal. apply js_sort_sorted_id.
    apply (StronglySorted_sublist _ _ _ (first_of_each_key_sublist _ [])) in Hbase.
    eapply StronglySorted_weaken; [|exact Hbase].
    intros a b [Ha [Hb Hle]]. unfold SuggestionsRoute.suggestion_order.
    rewrite Ha, Hb, Z.eqb_refl.
    destruct (Z.eqb_spec (relevanceScore a) (relevanceScore b)); simpl; lia.
  - intros env req now m Hlen.
    pose proof (GET_try_cases env req now m) as Htry. cbv zeta in Htry.
    rewrite GET_response, Htry, Hlen.
    destruct (nonempty (trim (or_empty (param_q req)))) eqn:Hne; [done|].
    apply nonempty_false in Hne. apply (proj2 (js_length_zero _)) in Hne. lia.
Qed.

(** ** The signup handler *)


(** ** The location caption handler *)

Lemma startsWith_app a b : startsWith (a +:+ b) a = true.
Proof. apply startsWith_is_prefix. by exists b. Qed.

(** X28. The caption handler answers 400 exactly when the location
    parameter is missing or empty.  Otherwise it answers 200 with a
    caption that starts with the location name, as given or up to case,
    whatever the provider returns.  The caption is the standard one when
    no credential is configured and when the provider call fails.  A text
    of the provider that starts with the location name up to case is
    returned trimmed and otherwise unchanged; any other text is put
    behind the location name and a dash. *)
Theorem caption_starts_with_location (replace_lead : string → string)
    (apiKey location : option string) (complete : string → exn (option string)) :
  let response := CaptionRoute.GET replace_lead apiKey location complete in
  let loc := or_empty location in
  (truthy location = false →
   response = mkApiResponse 400 (ApiError "Location parameter is required" None))
  ∧ (truthy location = true →
     ∃ caption,
       response = mkApiResponse 200 (ApiCaption caption)
       ∧ (startsWith caption loc = true
          ∨ startsWith (toLowerCase caption) (toLowerCase loc) = true)
       ∧ (truthy apiKey = false ∨ apiKey = Some "sk-placeholder"
          ∨ (∃ e, complete loc = Throw e) →
          caption = CaptionRoute.fallback loc)
       ∧ (∀ content text,
            truthy apiKey = true → or_empty apiKey ≠ "sk-placeholder" →
            complete loc = Ok content → text = trim (or_empty content) → text ≠ "" →
            caption = if startsWith (toLowerCase text) (toLowerCase loc)
                      then text
                      else loc +:+ " – " +:+ replace_lead text)).
Proof.
  intros response loc. subst response. unfold CaptionRoute.GET.
  split; [by intros ->|]. intros ->. cbn [negb]. fold loc.
  assert (Hfb : startsWith (CaptionRoute.fallback loc) loc = true).
  { unfold CaptionRoute.fallback. apply startsWith_app. }
  destruct (truthy apiKey) eqn:Hkey; cbn [negb orb];
    [|eexists; split; [done|]; split; [by left|]; split; [done|]; intros; done].
  destruct (String.eqb_spec (or_empty apiKey) "sk-placeholder") as [Hph|Hph];
    [eexists; split; [done|]; split; [by left|]; split; [done|]; intros; done|].
  destruct (complete loc) as [content|e] eqn:Hc;
    [|eexists; split; [done|]; split; [by left|]; split; [done|]; intros; done].
  set (text := trim (or_empty content)).
  set (caption := if nonempty text then text else CaptionRoute.fallback loc).
  eexists. split; [done|]. split; [|split].
  - destruct (startsWith (toLowerCase caption) (toLowerCase loc)) eqn:Hs; cbn [negb];
      [by right | left; apply startsWith_app].
  - intros [H | [H | [e H]]]; [done | | done]. rewrite H in Hph. done.
  - intros content' text' _ _ [= <-] -> Hne. fold text in Hne |- *.
    apply nonempty_true in Hne. subst caption. rewrite Hne.
    by destruct (startsWith (toLowerCase text) (toLowerCase loc)).
Qed.

End Properties.

(** * The handlers on ASCII text *)

(** From here on the built-ins are those of [ascii_runtime].  It computes
    what the JavaScript built-ins return on text whose characters outside
    ASCII have no case and are not whitespace, and on ASCII text for the
    length.  The samples below are such text (ASCII, with the arrow of a
    label or a dash at most), so every value is the value of the code on
    that input. *)

(** ** The ASCII runtime *)

Module AsciiFacts.
Import AsciiRuntime.

Lemma ascii_is_ws_lower_char c : is_ws (lower_char c) = is_ws c.
Proof. destruct c as [[] [] [] [] [] [] [] []]; reflexivity. Qed.

Lemma ascii_lower_char_idem c : lower_char (lower_char c) = lower_char c.
Proof. destruct c as [[] [] [] [] [] [] [] []]; reflexivity. Qed.

Lemma ascii_toLowerCase_idem s : toLowerCase (toLowerCase s) = toLowerCase s.
Proof. induction s as [|c s IH]; simpl; [done|]. by rewrite ascii_lower_char_idem, IH. Qed.

Lemma ascii_trimStart_toLowerCase s : trimStart (toLowerCase s) = toLowerCase (trimStart s).
Proof.
  induction s as [|c s IH]; simpl; [done|].
  rewrite ascii_is_ws_lower_char. by destruct (is_ws c).
Qed.

Lemma ascii_trimEnd_toLowerCase s : trimEnd (toLowerCase s) = toLowerCase (trimEnd s).
Proof.
  induction s as [|c s IH]; simpl; [done|].
  rewrite IH, ascii_is_ws_lower_char.
  destruct (trimEnd s); simpl; [by destruct (is_ws c) | done].
Qed.

Lemma ascii_trim_toLowerCase s : trim (toLowerCase s) = toLowerCase (trim s).
Proof. unfold trim. by rewrite ascii_trimStart_toLowerCase, ascii_trimEnd_toLowerCase. Qed.

Lemma ascii_trimEnd_idem s : trimEnd (trimEnd s) = trimEnd s.
Proof.
  induction s as [|c s IH]; simpl; [done|].
  destruct (trimEnd s) as [|c' r] eqn:E.
  - destruct (is_ws c) eqn:Ec; simpl; [done|]. by rewrite Ec.
  - change (trimEnd (String c (String c' r)))
      with (match trimEnd (String c' r) with
            | EmptyString => if is_ws c then EmptyString else String c EmptyString
            | String c0 r0 => String c (String c0 r0)
            end).
    by rewrite IH.
Qed.

Lemma ascii_trimStart_head s :
  trimStart s = "" ∨ ∃ c r, trimStart s = String c r ∧ is_ws c = false.
Proof.
  induction s as [|c s IH]; simpl; [by left|].
  destruct (is_ws c) eqn:Ec; [done|]. right. by exists c, s.
Qed.

Lemma ascii_trimEnd_head c r :
  is_ws c = false → ∃ r', trimEnd (String c r) = String c r'.
Proof.
  intros Hc. simpl. destruct (trimEnd r); rewrite ?Hc; by eexists.
Qed.

Lemma ascii_trim_idem s : trim (trim s) = trim s.
Proof.
  unfold trim. destruct (ascii_trimStart_head s) as [-> | [c [r [-> Hc]]]]; [done|].
  destruct (ascii_trimEnd_head c r Hc) as [r' Hr'].
  rewrite Hr'. cbn [trimStart]. rewrite Hc, <- Hr'. apply ascii_trimEnd_idem.
Qed.

Lemma ascii_toLowerCase_empty s : toLowerCase s = "" ↔ s = "".
Proof. destruct s; simpl; split; done. Qed.

End AsciiFacts.

Lemma ascii_empty_laws : @JsEmptyLaws ascii_runtime.
Proof.
  split.
  - intros s. destruct s; simpl; split; done.
  - apply AsciiFacts.ascii_toLowerCase_empty.
  - reflexivity.
Qed.

Lemma ascii_case_laws : @JsCaseLaws ascii_runtime.
Proof.
  split.
  - apply AsciiFacts.ascii_toLowerCase_idem.
  - apply AsciiFacts.ascii_trim_idem.
  - apply AsciiFacts.ascii_trim_toLowerCase.
Qed.

#[global] Existing Instance ascii_runtime.
#[global] Existing Instance ascii_empty_laws.
#[global] Existing Instance ascii_case_laws.

(** ** Sample evaluations *)

(** C3, as stated, fails: the scorer trims the query but not the fields.
    For the origin ["Boston "] (a trailing space) and the query
    ["boston"] the trimmed, case-insensitive comparison is an equality
    (tier 100), and the scorer answers 80. *)
Lemma relevance_untrimmed_field :
  trim (toLowerCase "Boston ") = trim (toLowerCase "boston")
  ∧ spec_relevance (Some "Boston ") None "boston" = 100
  ∧ calculateRelevanceScore (Some "Boston ") None "boston" = 80.
Proof. by vm_compute. Qed.

Lemma calculateRelevanceScore_tiers_witness :
  ¬ tier_exact "new" "boston" "new york"
  ∧ tier_prefix "new" "boston" "new york"
  ∧ calculateRelevanceScore (Some "Boston") (Some "New York") " new " = 80.
Proof.
  assert (Hne : ¬ tier_exact "new" "boston" "new york").
  { intros [H|H]; discriminate H. }
  assert (Hpre : tier_prefix "new" "boston" "new york").
  { right. exists " york". reflexivity. }
  split; [exact Hne|]. split; [exact Hpre|].
  exact (proj1 (proj2 (calculateRelevanceScore_tiers (Some "Boston") (Some "New York")
                         " new ")) Hne Hpre).
Defined.

(** The scorer on sample inputs, one per tier. *)
Example score_exact : calculateRelevanceScore (Some "Austin") (Some "Boston") " BOSTON " = 100.
Proof. reflexivity. Qed.

Example score_substring : calculateRelevanceScore (Some "Austin") (Some "Boston") "ost" = 60.
Proof. reflexivity. Qed.

Example score_word : calculateRelevanceScore (Some "San Jose") (Some "New York") "york jo" = 40.
Proof. reflexivity. Qed.

Example score_fallback : calculateRelevanceScore (Some "Austin") None "xyz" = 20.
Proof. reflexivity. Qed.

Example split_ws_edges : split_ws " a  b " = [""; "a"; "b"; ""] ∧ split_ws "" = [""].
Proof. split; reflexivity. Qed.



Lemma dedup_keeps_group_winner_witness :
  key_of history_candidate = key_of generated_candidate
  ∧ relevanceScore history_candidate = relevanceScore generated_candidate
  ∧ sourcePriority (source generated_candidate) < sourcePriority (source history_candidate)
  ∧ deduplicateSuggestions [history_candidate; generated_candidate] = [history_candidate]
  ∧ deduplicateSuggestions [generated_candidate; history_candidate] = [history_candidate].
Proof.
  assert (Hkey : key_of history_candidate = key_of generated_candidate) by reflexivity.
  assert (Hscore : relevanceScore history_candidate = relevanceScore generated_candidate)
    by reflexivity.
  assert (Hprio : sourcePriority (source generated_candidate)
                  < sourcePriority (source history_candidate)) by (simpl; lia).
  split; [exact Hkey|]. split; [exact Hscore|]. split; [exact Hprio|].
  exact (proj2 (proj2 (dedup_keeps_group_winner [] ""))
           history_candidate generated_candidate Hkey Hscore Hprio).
Defined.

(** C2, as stated, fails: the gazetteer adds 10 to the score of the
    scorer, without a cap.  For the query ["texas"] the entry Texas is an
    exact match, and its suggestion carries the score 110. *)
Lemma static_score_above_100 :
  map relevanceScore (getStaticSuggestions "texas") = [110]
  ∧ ¬ Forall (fun s => 0 ≤ relevanceScore s ≤ 100) (getStaticSuggestions "texas").
Proof.
  assert (H : map relevanceScore (getStaticSuggestions "texas") = [110]) by (by vm_compute).
  split; [exact H|]. intros Hall.
  pose proof (proj2 (@List.Forall_map _ _ relevanceScore (fun z => 0 ≤ z ≤ 100) _) Hall)
    as Hscores.
  rewrite H in Hscores. apply Forall_cons in Hscores as [Hscore _]. lia.
Qed.

Lemma candidate_score_range_witness :
  getDatabaseSuggestions no_provider_env "texas" = Ok []
  ∧ getAISuggestions no_provider_env "texas" = Ok (ai_fallback "texas")
  ∧ Forall (fun s => source s = static
                     ∧ relevanceScore s
                       = calculateRelevanceScore (origin s) (destination s) (trim "texas") + 10
                     ∧ 30 ≤ relevanceScore s ≤ 110)
           (getStaticSuggestions "texas")
  ∧ Forall (fun s => source s = database ∧ 20 ≤ relevanceScore s ≤ 100) []
  ∧ Forall (fun s => source s = ai ∧ 20 ≤ relevanceScore s ≤ 100) (ai_fallback "texas").
Proof.
  assert (Hdb : getDatabaseSuggestions no_provider_env "texas" = Ok []) by reflexivity.
  assert (Hai : getAISuggestions no_provider_env "texas" = Ok (ai_fallback "texas"))
    by reflexivity.
  split; [exact Hdb|]. split; [exact Hai|].
  exact (candidate_score_range no_provider_env "texas" [] (ai_fallback "texas") Hdb Hai).
Defined.

(** C1 fails on the suggestion handler: it has no [slice] after the sort.
    For the query ["an"], with no provider key and an empty trip table,
    the gazetteer gives ten places, the fallback of the generative adapter
    two routes, no two share an identity key, and the answer has twelve
    entries. *)
Theorem suggestions_not_truncated :
  ∃ l, (SuggestionsRoute.GET no_provider_env (mkRequest (Some "an") None None) 0 ∅).1
       = mkResponse 200 (SuggestionsBody l false)
       ∧ length l = 12%nat.
Proof. vm_compute. eexists. split; reflexivity. Qed.




Lemma calculateRelevanceScore_insensitive_witness :
  calculateRelevanceScore (Some "Austin") (Some "BOSTON") " Boston "
  = calculateRelevanceScore (Some "austin") (Some "boston") "boston".
Proof.
  exact (calculateRelevanceScore_insensitive (Some "Austin") (Some "BOSTON") " Boston ").
Defined.

Lemma normalizeRoute_insensitive_witness :
  normalizeRoute (Some " Austin") (Some "BOSTON ")
  = normalizeRoute (Some "austin") (Some "boston")
  ∧ (normalizeRoute (Some "  ") None = "" ↔ trim "  " = "" ∧ trim "" = "").
Proof.
  pose proof (normalizeRoute_insensitive (Some " Austin") (Some "BOSTON ")) as [Hkey _].
  pose proof (normalizeRoute_insensitive (Some "  ") None) as [_ [Hblank _]].
  split; [exact Hkey | exact Hblank].
Defined.

Lemma filterUSLocations_complete_witness :
  trim "yor" ≠ ""
  ∧ length (filterUSLocations "yor" 10) = Nat.min 10 (length (matching_locations "yor"))
  ∧ ((length (matching_locations "yor") ≤ 10)%nat →
     filterUSLocations "yor" 10 ≡ₚ matching_locations "yor").
Proof.
  assert (H : trim "yor" ≠ "") by discriminate.
  split; [exact H|]. exact (filterUSLocations_complete "yor" 10 H).
Defined.

Lemma static_suggestion_scores_witness :
  location_suggestion "aus" (mkLocation "city-10" "Austin" LCity) ∈ getStaticSuggestions " Aus"
  ∧ relevanceScore (location_suggestion "aus" (mkLocation "city-10" "Austin" LCity))
    ∈ [110; 90; 70].
Proof.
  assert (H : location_suggestion "aus" (mkLocation "city-10" "Austin" LCity)
              ∈ getStaticSuggestions " Aus").
  { vm_compute. apply list_elem_of_here. }
  split; [exact H|]. exact (proj1 (static_suggestion_scores " Aus" _ H)).
Defined.

Lemma dedup_fixpoint_witness :
  NoDup (map key_of [history_candidate; label_only])
  ∧ deduplicateSuggestions [history_candidate; label_only] = [history_candidate; label_only].
Proof.
  assert (H : NoDup (map key_of [history_candidate; label_only])).
  { vm_compute. apply NoDup_cons. split; [|apply NoDup_singleton].
    intros Hin%list_elem_of_singleton. discriminate Hin. }
  split; [exact H|]. exact (proj1 (dedup_fixpoint _) H).
Defined.

Lemma GET_rate_limit_state_witness :
  (SuggestionsRoute.GET no_provider_env (mkRequest (Some " a ") None None) 0 ∅).2 = ∅
  ∧ (SuggestionsRoute.GET no_provider_env (mkRequest (Some "an") None None) 0 ∅).2
    = <[ "unknown" := mkRecord 1 (0 + 60000) ]> ∅.
Proof.
  split.
  - exact (GET_rate_limit_state no_provider_env (mkRequest (Some " a ") None None) 0 ∅).
  - exact (GET_rate_limit_state no_provider_env (mkRequest (Some "an") None None) 0 ∅).
Defined.

Lemma GET_no_empty_fields_witness :
  mkFormatted "ai:2" "texas → New York (bus)" (Some "texas") (Some "New York") TRoute None
  ∈ suggestions_of
      (SuggestionsRoute.GET no_provider_env (mkRequest (Some "texas") None None) 0 ∅).1
  ∧ Some "texas" ≠ Some "" ∧ Some "New York" ≠ Some "" ∧ (None : option string) ≠ Some "".
Proof.
  assert (Hin : mkFormatted "ai:2" "texas → New York (bus)" (Some "texas")
                  (Some "New York") TRoute None
                ∈ suggestions_of
                    (SuggestionsRoute.GET no_provider_env
                       (mkRequest (Some "texas") None None) 0 ∅).1).
  { vm_compute. do 2 apply list_elem_of_further. apply list_elem_of_here. }
  split; [exact Hin|].
  exact (GET_no_empty_fields no_provider_env (mkRequest (Some "texas") None None) 0 ∅ _ Hin).
Defined.

Lemma getDatabaseSuggestions_rows_witness :
  getDatabaseSuggestions history_env "bos"
  = Ok [ trip_suggestion "bos" (mkTrip "t3" "Boston" "New York");
         trip_suggestion "bos" (mkTrip "t1" "Austin" "Boston") ]
  ∧ NoDup (map row_key [ trip_suggestion "bos" (mkTrip "t3" "Boston" "New York");
                         trip_suggestion "bos" (mkTrip "t1" "Austin" "Boston") ]).
Proof.
  assert (H : getDatabaseSuggestions history_env "bos"
              = Ok [ trip_suggestion "bos" (mkTrip "t3" "Boston" "New York");
                     trip_suggestion "bos" (mkTrip "t1" "Austin" "Boston") ])
    by (by vm_compute).
  split; [exact H|]. exact (proj1 (getDatabaseSuggestions_rows history_env "bos" _ H)).
Defined.

Lemma getAISuggestions_provider_items_witness :
  provider_configured tagging_env
  ∧ (length (imap (ai_suggestion tagging_env "springfield")
               [ mkAIItem (Some "route") (Some "Springfield loop") (Some "Springfield")
                   (Some "Springfield") (Some "bus") None;
                 mkAIItem None None (Some "Salem") (Some "salem") None None;
                 mkAIItem None (Some "Zilker Park") None (Some "Austin") None None ]) ≤ 8)%nat.
Proof.
  assert (Hconf : provider_configured tagging_env).
  { exists "sk-live". repeat split. }
  split; [exact Hconf|].
  exact (proj1 (getAISuggestions_provider_items tagging_env "springfield" _ Hconf eq_refl)).
Defined.

Lemma getAISuggestions_legacy_shapes_witness :
  provider_configured legacy_env
  ∧ getAISuggestions legacy_env "boston"
    = Ok [ ai_suggestion legacy_env "boston" 0
             (legacy_route (mkAIItem None None None (Some "Boston") (Some "train") None)) ]
  ∧ ∃ s, [ ai_suggestion legacy_env "boston" 0
             (legacy_route (mkAIItem None None None (Some "Boston") (Some "train") None)) ]
         = [s]
         ∧ origin s = Some "Boston" ∧ destination s = Some "Boston"
         ∧ type_ s = Some TRoute.
Proof.
  assert (Hconf : provider_configured legacy_env).
  { exists "sk-live". repeat split. }
  assert (Hl : getAISuggestions legacy_env "boston"
               = Ok [ ai_suggestion legacy_env "boston" 0
                        (legacy_route
                           (mkAIItem None None None (Some "Boston") (Some "train") None)) ])
    by reflexivity.
  split; [exact Hconf|]. split; [exact Hl|].
  refine (proj2 (proj2 (getAISuggestions_legacy_shapes legacy_env "boston" _ [] Hconf Hl))
            _ "Boston" eq_refl eq_refl _ eq_refl).
  discriminate.
Defined.

Lemma search_route_outcomes_witness :
  (2 ≤ js_length (trim "new york"))%nat
  ∧ (checkRateLimit SearchRoute.RATE_LIMIT_WINDOW SearchRoute.RATE_LIMIT_MAX_REQUESTS
       (getClientIP (mkRequest (Some "new york") None None)) 0 ∅).1 = true
  ∧ SearchRoute.GET (mkRequest (Some "new york") None None) 0 ∅
    = (mkResponse 200
         (SuggestionsBody
            (SearchRoute.unique_labels ∅
               (map SearchRoute.location_entry (filterUSLocations (trim "new york") 5)))
            false),
       (checkRateLimit SearchRoute.RATE_LIMIT_WINDOW SearchRoute.RATE_LIMIT_MAX_REQUESTS
          (getClientIP (mkRequest (Some "new york") None None)) 0 ∅).2).
Proof.
  assert (Hlen : (2 ≤ js_length (trim "new york"))%nat) by (vm_compute; lia).
  assert (Hok : (checkRateLimit SearchRoute.RATE_LIMIT_WINDOW
                   SearchRoute.RATE_LIMIT_MAX_REQUESTS
                   (getClientIP (mkRequest (Some "new york") None None)) 0 ∅).1 = true)
    by reflexivity.
  split; [exact Hlen|]. split; [exact Hok|].
  exact (proj2 (proj2 (search_route_outcomes (mkRequest (Some "new york") None None) 0 ∅))
           Hlen Hok).
Defined.

Lemma dedup_trusts_sources_witness :
  history_candidate ∈ [generated_candidate; history_candidate]
  ∧ ∃ w, w ∈ deduplicateSuggestions [generated_candidate; history_candidate]
         ∧ key_of w = key_of history_candidate
         ∧ (source history_candidate = static →
            source w = static ∧ relevanceScore history_candidate ≤ relevanceScore w)
         ∧ (source history_candidate = database → source w ≠ ai).
Proof.
  assert (Hin : history_candidate ∈ [generated_candidate; history_candidate]).
  { apply list_elem_of_further, list_elem_of_here. }
  split; [exact Hin|]. exact (dedup_trusts_sources _ _ Hin).
Defined.

Lemma calculateRelevanceScore_blank_query_witness :
  trim (toLowerCase "  ") = ""
  ∧ calculateRelevanceScore (Some "Austin") (Some "Boston") "  " = 80.
Proof.
  split; [reflexivity|].
  exact (calculateRelevanceScore_blank_query (Some "Austin") (Some "Boston") "  " eq_refl).
Defined.

Lemma gazetteer_only_answer_witness :
  js_length (trim (or_empty (param_q (mkRequest (Some " a ") None None)))) = 1%nat
  ∧ (SuggestionsRoute.GET no_provider_env (mkRequest (Some " a ") None None) 0 ∅).1
    = mkResponse 200
        (SuggestionsBody
           (SuggestionsRoute.aggregate
              (getStaticSuggestions (trim (or_empty (param_q (mkRequest (Some " a ") None None)))))
              [] [])
           false).
Proof.
  split; [reflexivity|].
  exact (proj2 (gazetteer_only_answer "a") no_provider_env
           (mkRequest (Some " a ") None None) 0 ∅ eq_refl).
Defined.

Lemma caption_starts_with_location_witness :
  truthy (Some "Texas") = true
  ∧ CaptionRoute.GET (fun c => c) (Some "sk-live") (Some "Texas")
      (fun _ => Ok (Some " TEXAS – wide open spaces. "))
    = mkApiResponse 200 (ApiCaption "TEXAS – wide open spaces.").
Proof.
  split; [reflexivity|].
  destruct (proj2 (caption_starts_with_location (fun c => c) (Some "sk-live") (Some "Texas")
                     (fun _ => Ok (Some " TEXAS – wide open spaces. "))) eq_refl)
    as [caption [Hresp [_ [_ Hkeep]]]].
  rewrite Hresp. f_equal. f_equal.
  rewrite (Hkeep (Some " TEXAS – wide open spaces. ") "TEXAS – wide open spaces." eq_refl).
  - reflexivity.
  - discriminate.
  - reflexivity.
  - reflexivity.
  - discriminate.
Defined.
